(** * guide-to-mongodb: the boot files, the auth tutorial and the reference resolver

    The development follows the repository:
    - [Node]      : a small model of a Node.js process (environment, console,
                    exit status, pending connection, HTTP server);
    - [Db]        : [config/db.js], the [connectDB] function;
    - [App]       : [app.js], the start-up script and the event loop around it;
    - [Auth]      : the code of [README-auth.md] (user schema, [register],
                    [authenticate], [authorize], the protected routes);
    - [Gate]      : the access control gate of the specification with its
                    owner-only rules, which [authorize] of [README-auth.md]
                    does not have: modelled from the specification;
    - [Resolver]  : the reference resolver of the specification; in the
                    repository only calls of the ODM's [populate] exist
                    ([README.md]), so this part is modelled from the
                    specification, over the schemas the tutorial declares;
    - [EmailValidator] : the validator of the email path of [README.md]. *)

From Stdlib Require Import Ascii.
From stdpp Require Import base option list gmap strings pretty.

#[local] Set Warnings "-clear-no-such-hyp".

Local Open Scope string_scope.
Local Open Scope list_scope.

(** ** A Node.js process *)

Module Node.

(** An [Error] object: what [error.message] reads. *)
Record JsError := mkError { message : string }.

(** What a port expression evaluates to: [process.env.PORT] is a string,
    the literal [8080] a number. *)
Inductive Port :=
| PortStr (s : string)
| PortNum (n : Z).

(** Template-literal interpolation [${PORT}]. *)
Definition port_to_string (p : Port) : string :=
  match p with
  | PortStr s => s
  | PortNum n => pretty n
  end.

(** *** [Number(s)] of a string

    The characters of a string are its code units; a [string] holds the
    code units below 256. *)

Definition code (c : ascii) : N := Ascii.N_of_ascii c.

(** White space and line terminators, as [Number] and [trim] strip them:
    TAB, LF, VT, FF, CR, SP and NBSP are the ones below 256. *)
Definition is_white (c : ascii) : bool :=
  bool_decide (code c ∈ [9; 10; 11; 12; 13; 32; 160]%N).

Fixpoint drop_white (cs : list ascii) : list ascii :=
  match cs with
  | c :: cs' => if is_white c then drop_white cs' else cs
  | [] => []
  end.

(** [s.trim()] on the code units. *)
Definition trim (cs : list ascii) : list ascii :=
  reverse (drop_white (reverse (drop_white cs))).

(** The value of a digit in a base up to 16. *)
Definition digit_of (base : N) (c : ascii) : option N :=
  let n := code c in
  let d := if (48 <=? n)%N && (n <=? 57)%N then Some (n - 48)%N
           else if (97 <=? n)%N && (n <=? 102)%N then Some (n - 87)%N
           else if (65 <=? n)%N && (n <=? 70)%N then Some (n - 55)%N
           else None in
  d ≫= λ v, if (v <? base)%N then Some v else None.

(** The longest prefix of digits, and what follows it. *)
Fixpoint span_digits (base : N) (cs : list ascii) : list N * list ascii :=
  match cs with
  | [] => ([], [])
  | c :: cs' =>
      match digit_of base c with
      | Some d => let '(ds, rest) := span_digits base cs' in (d :: ds, rest)
      | None => ([], cs)
      end
  end.

Definition digits_value (base : N) (ds : list N) : N :=
  foldl (λ acc d, acc * base + d)%N 0%N ds.

(** What [Number(s)] denotes before it is rounded to a double: not a
    number, an infinity, or the signed decimal [m * 10^e]. *)
Inductive StrNumber :=
| SNaN
| SInfinity (neg : bool)
| SDecimal (neg : bool) (m : N) (e : Z).

(** A leading sign. *)
Definition signed (cs : list ascii) : bool * list ascii :=
  match cs with
  | "+"%char :: cs' => (false, cs')
  | "-"%char :: cs' => (true, cs')
  | _ => (false, cs)
  end.

(** [0x], [0o] and [0b] literals: [Some] of the base and the digits. *)
Definition radix_prefix (cs : list ascii) : option (N * list ascii) :=
  match cs with
  | "0"%char :: c :: body =>
      if bool_decide (c = "x"%char ∨ c = "X"%char) then Some (16%N, body)
      else if bool_decide (c = "o"%char ∨ c = "O"%char) then Some (8%N, body)
      else if bool_decide (c = "b"%char ∨ c = "B"%char) then Some (2%N, body)
      else None
  | _ => None
  end.

(** The exponent part [e±ddd], which must end the literal. *)
Definition exponent_part (cs : list ascii) : option Z :=
  match cs with
  | [] => Some 0%Z
  | c :: cs' =>
      if bool_decide (c = "e"%char ∨ c = "E"%char) then
        let '(neg, body) := signed cs' in
        match span_digits 10 body with
        | (d :: ds, []) =>
            let v := Z.of_N (digits_value 10 (d :: ds)) in
            Some (if neg then - v else v)%Z
        | _ => None
        end
      else None
  end.

(** An unsigned decimal literal: digits, an optional fraction, an
    optional exponent; one digit at least before the exponent. *)
Definition decimal_literal (neg : bool) (cs : list ascii) : StrNumber :=
  let '(ip, r1) := span_digits 10 cs in
  let '(fp, r2) := match r1 with
                   | "."%char :: r => span_digits 10 r
                   | _ => ([], r1)
                   end in
  match ip ++ fp with
  | [] => SNaN
  | ds =>
      match exponent_part r2 with
      | Some x => SDecimal neg (digits_value 10 ds) (x - Z.of_nat (length fp))
      | None => SNaN
      end
  end.

(** [Number(s)]: the string numeric literal grammar. *)
Definition to_number (s : string) : StrNumber :=
  match trim (String.list_ascii_of_string s) with
  | [] => SDecimal false 0 0
  | cs =>
      match radix_prefix cs with
      | Some (base, body) =>
          match span_digits base body with
          | (d :: ds, []) => SDecimal false (digits_value base (d :: ds)) 0
          | _ => SNaN
          end
      | None =>
          let '(neg, body) := signed cs in
          if bool_decide (body = String.list_ascii_of_string "Infinity")
          then SInfinity neg
          else decimal_literal neg body
      end
  end.

(** [m * 10^e <= a * 2^b] and [a * 2^b <= m * 10^e], on integers. *)
Definition scaled_le (m e a b : Z) : bool :=
  (m * 10 ^ Z.max e 0 * 2 ^ Z.max (- b) 0 <=?
   a * 2 ^ Z.max b 0 * 10 ^ Z.max (- e) 0)%Z.

Definition scaled_ge (m e a b : Z) : bool :=
  (a * 2 ^ Z.max b 0 * 10 ^ Z.max (- e) 0 <=?
   m * 10 ^ Z.max e 0 * 2 ^ Z.max (- b) 0)%Z.

(** The double nearest to [m * 10^e] is zero: the value is at most half
    the smallest positive double, [2^-1075]. *)
Definition rounds_to_zero (m : N) (e : Z) : bool :=
  scaled_le (Z.of_N m) e 1 (-1075).

(** The integer nearest to [m * 10^e]. *)
Definition nearest_integer (m e : Z) : Z :=
  ((2 * m * 10 ^ Z.max e 0 + 10 ^ Z.max (- e) 0) /
   (2 * 10 ^ Z.max (- e) 0))%Z.

(** [m * 10^e] lies within half the distance from the integer [n] to the
    doubles next to it, so that the double nearest to it is [n] (a tie
    goes to [n], whose mantissa is even). Below a power of two the
    doubles are twice as dense; next to zero stands [2^-1074]. *)
Definition within_half_gap (m e n : Z) : bool :=
  if (n =? 0)%Z then scaled_le m e 1 (-1075)
  else
    let k := Z.log2 n in
    (if (n =? 2 ^ k)%Z then scaled_ge m e (n * 2 ^ (54 - k) - 1) (k - 54)
     else scaled_ge m e (n * 2 ^ (53 - k) - 1) (k - 53)) &&
    scaled_le m e (n * 2 ^ (53 - k) + 1) (k - 53).

(** The double nearest to [m * 10^e] is an integer from 0 to 65535:
    [Some] of it. *)
Definition integer_value (m : N) (e : Z) : option Z :=
  let n := nearest_integer (Z.of_N m) e in
  if (65535 <? n)%Z then None
  else if within_half_gap (Z.of_N m) e n then Some n else None.

(** What a server is bound to: a TCP port (port 0 stands for a free port
    that the operating system picks) or a pipe. *)
Inductive Endpoint :=
| Tcp (n : Z)
| Pipe (name : string).

(** What [listen(port)] of a [net.Server] binds, [None] when it throws
    [ERR_SOCKET_BAD_PORT]. A string for which [Number(s) >= 0] fails is
    taken as the name of a pipe; any other value must pass the port
    validation: not a blank string, and a number that is an integer from
    0 to 65535. *)
Definition listen_endpoint (port : Port) : option Endpoint :=
  match port with
  | PortNum n =>
      if (0 <=? n)%Z && (n <=? 65535)%Z then Some (Tcp n) else None
  | PortStr s =>
      match to_number s with
      | SNaN => Some (Pipe s)
      | SInfinity neg => if neg then Some (Pipe s) else None
      | SDecimal neg m e =>
          if neg && negb (rounds_to_zero m e) then Some (Pipe s)
          else match trim (String.list_ascii_of_string s) with
               | [] => None
               | _ => Tcp <$> integer_value m e
               end
      end
  end.

(** The value of a decimal numeral: a non-empty string of the digits 0
    to 9. *)
Definition numeral (s : string) : option N :=
  match span_digits 10 (String.list_ascii_of_string s) with
  | (d :: ds, []) => Some (digits_value 10 (d :: ds))
  | _ => None
  end.

Inductive Stream := Stdout | Stderr.

(** [console.log({message: m})] and [console.error({message: m})]. *)
Record LogLine := mkLog { stream : Stream; line : string }.

(** State of the mongoose connection opened by [mongoose.connect(uri, {})]. *)
Inductive DbState :=
| DbIdle
| DbConnecting (uri : option string)
| DbConnected (host : string)
| DbFailed.

(** How the promise of [mongoose.connect] settles. *)
Inductive Settled :=
| Resolved (host : string)
| Rejected (e : JsError).

(** State of the promise an [async] function returned. *)
Inductive Promise :=
| NotCreated
| Pending
| Fulfilled
| RejectedWith (e : JsError).

Inductive ServerState :=
| NotStarted
| Binding (port : Port)
| Listening (port : Port).

Record Process := mkProcess {
  env : gmap string string;        (* process.env *)
  dotenv_file : gmap string string;(* the parsed .env file *)
  console : list LogLine;          (* oldest first *)
  exit_code : option Z;            (* set by process.exit *)
  db : DbState;
  connectDB_promise : Promise;
  server : ServerState;
  accepted : nat                   (* HTTP requests accepted so far *)
}.

Definition set_env (e : gmap string string) (p : Process) : Process :=
  mkProcess e (dotenv_file p) (console p) (exit_code p) (db p)
            (connectDB_promise p) (server p) (accepted p).
Definition set_console (c : list LogLine) (p : Process) : Process :=
  mkProcess (env p) (dotenv_file p) c (exit_code p) (db p)
            (connectDB_promise p) (server p) (accepted p).
Definition set_exit_code (x : option Z) (p : Process) : Process :=
  mkProcess (env p) (dotenv_file p) (console p) x (db p)
            (connectDB_promise p) (server p) (accepted p).
Definition set_db (d : DbState) (p : Process) : Process :=
  mkProcess (env p) (dotenv_file p) (console p) (exit_code p) d
            (connectDB_promise p) (server p) (accepted p).
Definition set_promise (q : Promise) (p : Process) : Process :=
  mkProcess (env p) (dotenv_file p) (console p) (exit_code p) (db p)
            q (server p) (accepted p).
Definition set_server (s : ServerState) (p : Process) : Process :=
  mkProcess (env p) (dotenv_file p) (console p) (exit_code p) (db p)
            (connectDB_promise p) s (accepted p).
Definition set_accepted (n : nat) (p : Process) : Process :=
  mkProcess (env p) (dotenv_file p) (console p) (exit_code p) (db p)
            (connectDB_promise p) (server p) n.

(** A freshly started process. *)
Definition boot (e file : gmap string string) : Process :=
  mkProcess e file [] None DbIdle NotCreated NotStarted 0.

(** How a block of statements ends: normally, by a [throw], or because
    [process.exit] stopped the process. *)
Inductive Outcome (A : Type) :=
| Returned (a : A)
| Thrown (e : JsError)
| Exited.
Arguments Returned {A} a.
Arguments Thrown {A} e.
Arguments Exited {A}.

Definition JS (A : Type) : Type := Process → Outcome A * Process.

Definition ret {A} (a : A) : JS A := λ p, (Returned a, p).

Definition bind {A B} (m : JS A) (k : A → JS B) : JS B :=
  λ p, match m p with
       | (Returned a, p') => k a p'
       | (Thrown e, p') => (Thrown e, p')
       | (Exited, p') => (Exited, p')
       end.

Definition throw {A} (e : JsError) : JS A := λ p, (Thrown e, p).

(** [try { body } catch (error) { handler }]: a [throw] of the body enters
    the handler; [process.exit] is not catchable. *)
Definition try_catch {A} (body : JS A) (handler : JsError → JS A) : JS A :=
  λ p, match body p with
       | (Thrown e, p') => handler e p'
       | r => r
       end.

Notation "'let*' x ':=' m 'in' k" := (bind m (λ x, k))
  (at level 10, x name, m at level 100, k at level 200).
Notation "m >>> k" := (bind m (λ _, k))
  (at level 90, right associativity).

Definition console_log (m : string) : JS unit :=
  λ p, (Returned (), set_console (console p ++ [mkLog Stdout m]) p).

Definition console_error (m : string) : JS unit :=
  λ p, (Returned (), set_console (console p ++ [mkLog Stderr m]) p).

Definition process_exit {A} (code : Z) : JS A :=
  λ p, (Exited, set_exit_code (Some code) p).

(** [require('dotenv').config()]: variables of the .env file are added to
    [process.env]; a variable that is already set keeps its value. *)
Definition dotenv_config (p : Process) : Process :=
  set_env (env p ∪ dotenv_file p) p.

End Node.

(** ** config/db.js *)

Module Db.
Import Node.

(** [await mongoose.connect(...)], once the promise has settled: the
    connection state is updated and a rejection is thrown into the
    [async] function. *)
Definition await_connect (r : Settled) : JS unit :=
  λ p, match r with
       | Resolved host => (Returned (), set_db (DbConnected host) p)
       | Rejected e => (Thrown e, set_db DbFailed p)
       end.

(** [mongoose.connection.host] *)
Definition connection_host : JS string :=
  λ p, match db p with
       | DbConnected host => (Returned host, p)
       | _ => (Returned "undefined", p)
       end.

(** The body of [connectDB] from the point where the awaited promise
    settles with [r]. *)
Definition connectDB_body (r : Settled) : JS unit :=
  try_catch
    (await_connect r >>>
     let* host := connection_host in
     console_log ("MongoDB connected: " +:+ host))
    (λ error,
     console_error ("Error: " +:+ message error) >>>
     process_exit 1).

(** The synchronous part of a call [connectDB()]: the argument
    [process.env.CLOUD_URI] is read, the connection attempt starts, and
    the [async] function hands a pending promise to its caller. *)
Definition connectDB_call (p : Process) : Process :=
  set_promise Pending (set_db (DbConnecting (env p !! "CLOUD_URI")) p).

(** Settling of the promise of an [async] function from the outcome of
    its body. After [process.exit] nothing settles it. *)
Definition settle (o : Outcome unit) (p : Process) : Process :=
  match o with
  | Returned _ => set_promise Fulfilled p
  | Thrown e => set_promise (RejectedWith e) p
  | Exited => p
  end.

(** Resumption of [connectDB] when the connection attempt settles. *)
Definition connectDB_resume (r : Settled) (p : Process) : Process :=
  let '(o, p') := connectDB_body r p in settle o p'.

(** A whole run of [connectDB] whose connection attempt settles with [r]. *)
Definition connectDB (r : Settled) (p : Process) : Process :=
  connectDB_resume r (connectDB_call p).

(** Top level of the module: [require('dotenv').config()]. *)
Definition load (p : Process) : Process := dotenv_config p.

End Db.

(** ** app.js *)

Module App.
Import Node.

(** [process.env.PORT || 8080]: an unset variable and the empty string are
    both falsy. *)
Definition port_of (e : gmap string string) : Port :=
  match e !! "PORT" with
  | Some s => if decide (s = "") then PortNum 8080 else PortStr s
  | None => PortNum 8080
  end.

Definition PORT (p : Process) : Port := port_of (env p).

(** The RangeError with code ERR_SOCKET_BAD_PORT. Its message goes on
    with the value received, in a form that depends on the version of
    Node. *)
Definition bad_port : JsError :=
  mkError "options.port should be >= 0 and < 65536.".

(** [app.listen(PORT, callback)]: the port is validated and the call
    throws when it is refused; otherwise the bind is requested and the
    callback is kept for the 'listening' event. *)
Definition app_listen (port : Port) : JS unit :=
  λ p, match listen_endpoint port with
       | Some _ => (Returned (), set_server (Binding port) p)
       | None => (Thrown bad_port, p)
       end.

(** The callback passed to [app.listen]. *)
Definition listen_callback (port : Port) : JS unit :=
  console_log ("Server is running on port " +:+ port_to_string port).

(** The end of the script: an exception that nothing caught stops the
    process with exit code 1. *)
Definition top_level (r : Outcome unit * Process) : Process :=
  match r with
  | (Thrown _, p) => set_exit_code (Some 1%Z) p
  | (_, p) => p
  end.

(** The script, statement by statement. The promise returned by
    [connectDB()] is dropped: nothing awaits it. *)
Definition main (p : Process) : Process :=
  let p1 := dotenv_config p in          (* require('dotenv').config() *)
  let p2 := Db.load p1 in               (* require('./config/db') *)
  let p3 := Db.connectDB_call p2 in     (* connectDB() *)
  top_level (app_listen (PORT p3) p3).  (* app.listen(PORT, ...) *)

(** The script up to the call of [app.listen]: the variables are
    loaded and the connection attempt is in flight. *)
Definition before_listen (e file : gmap string string) : Process :=
  Db.connectDB_call (Db.load (dotenv_config (boot e file))).

(** What the event loop can deliver after the script has run. A bind
    that fails is not among the events: what follows it differs between
    the versions of Express. *)
Inductive Event :=
| MongoSettled (r : Settled)   (* the connection attempt finished *)
| ServerBound                  (* the socket is bound: 'listening' *)
| HttpRequest.                 (* a client connects *)

Definition deliver (ev : Event) (p : Process) : Process :=
  match exit_code p with
  | Some _ => p
  | None =>
      match ev with
      | MongoSettled r =>
          match db p with
          | DbConnecting _ => Db.connectDB_resume r p
          | _ => p
          end
      | ServerBound =>
          match server p with
          | Binding port => snd (listen_callback port (set_server (Listening port) p))
          | _ => p
          end
      | HttpRequest =>
          match server p with
          | Listening _ => set_accepted (S (accepted p)) p
          | _ => p
          end
      end
  end.

Definition run (evs : list Event) (p : Process) : Process :=
  foldl (λ q ev, deliver ev q) p evs.

(** The event that settles the connection attempt. *)
Definition is_settle (ev : Event) : Prop :=
  match ev with
  | MongoSettled _ => True
  | _ => False
  end.

End App.

(** ** README-auth.md: user model, register, authenticate, authorize *)

Module Auth.

(** A stored document: its [_id] and its string-valued paths. *)
Record Document := mkDocument {
  _id : string;
  fields : gmap string string
}.

(** Options of a [String] path in a mongoose schema. *)
Record SchemaString := mkPath {
  required : bool;
  unique : bool;
  enum : option (list string);
  default : option string
}.

(** [userSchema] of models/User.js. *)
Definition userSchema : list (string * SchemaString) :=
  [ ("username", mkPath true true None None);
    ("password", mkPath true false None None);
    ("role", mkPath false false (Some ["admin"; "user"]) (Some "user")) ].

(** Why [save] fails: the first validator that fails, in schema order,
    or the unique index. The wording of [err.message] is the library's
    (mongoose reports every failing path in one message) or the database
    server's, and is not modelled. *)
Inductive SaveError :=
| RequiredError (path : string)            (* Path `p` is required. *)
| EnumError (path value : string)          (* not a valid enum value *)
| DuplicateKey (path value : string).      (* E11000 duplicate key error *)

(** [new Model(obj)]: a path left undefined takes its schema default. *)
Definition apply_defaults (schema : list (string * SchemaString))
    (obj : gmap string string) : gmap string string :=
  foldr (λ '(path, opts) d,
           match d !! path, default opts with
           | None, Some v => <[path := v]> d
           | _, _ => d
           end) obj schema.

(** The validators of one path: [required] rejects an undefined or empty
    string, [enum] rejects a defined value outside the list. *)
Definition validate_path (path : string) (opts : SchemaString)
    (d : gmap string string) : option SaveError :=
  match d !! path with
  | None => if required opts then Some (RequiredError path) else None
  | Some v =>
      if required opts && bool_decide (v = "") then Some (RequiredError path)
      else match enum opts with
           | Some allowed =>
               if bool_decide (v ∈ allowed) then None else Some (EnumError path v)
           | None => None
           end
  end.

(** [doc.validate()]: the first failing path, in schema order. *)
Fixpoint validate (schema : list (string * SchemaString))
    (d : gmap string string) : option SaveError :=
  match schema with
  | [] => None
  | (path, opts) :: rest =>
      match validate_path path opts d with
      | Some e => Some e
      | None => validate rest d
      end
  end.

(** The unique indexes of the collection, checked on insert. *)
Fixpoint check_unique (schema : list (string * SchemaString))
    (d : gmap string string) (coll : list Document) : option SaveError :=
  match schema with
  | [] => None
  | (path, opts) :: rest =>
      match d !! path with
      | Some v =>
          if unique opts && bool_decide (Some v ∈ (λ x, fields x !! path) <$> coll)
          then Some (DuplicateKey path v)
          else check_unique rest d coll
      | None => check_unique rest d coll
      end
  end.

(** The decoded payload of a token: [{ id, role }]. *)
Record Payload := mkPayload {
  id : string;
  role : option string
}.

(** The part of an Express request the handlers read; [user] is the
    property that [authenticate] sets. *)
Record Request := mkRequest {
  headers : gmap string string;
  params : gmap string string;
  body : gmap string string;
  user : option Payload
}.

Inductive Json :=
| JMessage (message : string)     (* { message } *)
| JToken (token : string)         (* { token } *)
| JSaveError (e : SaveError).     (* { message: err.message } of a refused save *)

Record Response := mkResponse {
  status : Z;
  json : Json
}.

(** What a middleware does with a request. *)
Inductive Step :=
| Next (req : Request)            (* next() *)
| Respond (res : Response)        (* res.status(..).json(..) *)
| Raise (error : string).         (* an uncaught exception *)

(** The users collection, the ObjectId counter and [process.env]. *)
Record Server := mkServer {
  users : list Document;
  next_id : nat;
  env : gmap string string
}.

(** [String.prototype.replace(pattern, replacement)] with a string
    pattern: the first occurrence only. *)
Fixpoint replace (pattern replacement s : string) : string :=
  if String.prefix pattern s
  then replacement +:+ String.substring (String.length pattern)
                                        (String.length s - String.length pattern) s
  else match s with
       | EmptyString => EmptyString
       | String c s' => String c (replace pattern replacement s')
       end.

Section WithLibraries.

(** The libraries the code calls. [None] stands for a thrown exception.
    [jwt_sign] is [jwt.sign] at the instant of the call: the token it
    returns carries the times of issue and of expiry. *)
Variable bcrypt_hash : string → nat → string.
Variable jwt_sign : Payload → option string → string → option string.
Variable jwt_verify : string → option string → option Payload.
Variable new_ObjectId : nat → string.

(** [userSchema.pre('save', ...)]: a new document's password counts as
    modified and is replaced by its hash. *)
Definition pre_save (d : gmap string string) : gmap string string :=
  match d !! "password" with
  | Some pw => <["password" := bcrypt_hash pw 10]> d
  | None => d
  end.

(** [new User(obj)] *)
Definition new_User (obj : gmap string string) (s : Server) : Document :=
  mkDocument (new_ObjectId (next_id s)) (apply_defaults userSchema obj).

(** [await user.save()]: validation, then the save hook, then the insert. *)
Definition save (u : Document) (s : Server) : SaveError + (Document * Server) :=
  match validate userSchema (fields u) with
  | Some e => inl e
  | None =>
      let d := pre_save (fields u) in
      match check_unique userSchema d (users s) with
      | Some e => inl e
      | None =>
          let saved := mkDocument (_id u) d in
          inr (saved, mkServer (users s ++ [saved]) (S (next_id s)) (env s))
      end
  end.

(** [generateToken(user)] *)
Definition generateToken (u : Document) (s : Server) : option string :=
  jwt_sign (mkPayload (_id u) (fields u !! "role")) (env s !! "JWT_SECRET") "1h".

(** The object [{ username, password, role }] built from [req.body]:
    a property that is undefined in the body stays undefined. *)
Definition pick (keys : list string) (obj : gmap string string)
    : gmap string string :=
  filter (λ kv, kv.1 ∈ keys) obj.

(** [exports.register]. When [jwt.sign] throws, the answer carries the
    library's message for a missing secret. *)
Definition register (req : Request) (s : Server) : Response * Server :=
  let obj := pick ["username"; "password"; "role"] (body req) in
  let user := new_User obj s in
  match save user s with
  | inl err => (mkResponse 400 (JSaveError err), s)
  | inr (saved, s') =>
      match generateToken saved s' with
      | Some token => (mkResponse 201 (JToken token), s')
      | None => (mkResponse 400 (JMessage "secretOrPrivateKey must have a value"), s')
      end
  end.

(** [exports.authenticate] *)
Definition authenticate (s : Server) (req : Request) : Step :=
  let token := replace "Bearer " "" <$> (headers req !! "Authorization") in
  match token with
  | None => Respond (mkResponse 401 (JMessage "Access denied"))
  | Some t =>
      if bool_decide (t = "")
      then Respond (mkResponse 401 (JMessage "Access denied"))
      else match jwt_verify t (env s !! "JWT_SECRET") with
           | Some decoded =>
               Next (mkRequest (headers req) (params req) (body req) (Some decoded))
           | None => Respond (mkResponse 400 (JMessage "Invalid token"))
           end
  end.

(** [roles.includes(x)], where [x] may be undefined. *)
Definition includes (roles : list string) (x : option string) : bool :=
  match x with
  | Some r => bool_decide (r ∈ roles)
  | None => false
  end.

(** [exports.authorize]: reading [req.user.role] throws a TypeError when
    [req.user] is undefined. *)
Definition authorize (roles : list string) (req : Request) : Step :=
  match user req with
  | None =>
      Raise "TypeError: Cannot read properties of undefined (reading 'role')"
  | Some u =>
      if includes roles (role u)
      then Next req
      else Respond (mkResponse 403 (JMessage "Forbidden"))
  end.

(** The middlewares of a route run in order until one of them answers. *)
Fixpoint run_middlewares (ms : list (Request → Step)) (req : Request) : Step :=
  match ms with
  | [] => Next req
  | m :: rest =>
      match m req with
      | Next req' => run_middlewares rest req'
      | other => other
      end
  end.

Inductive Method := GET | POST | PUT | DELETE.

Record Route := mkRoute {
  method : Method;
  path : string;
  middlewares : list (Request → Step);
  controller : string
}.

(** routes/pokemonRoutes.js with role-based access control. *)
Definition pokemonRoutes (s : Server) : list Route :=
  [ mkRoute GET "/" [] "getAllPokemon";
    mkRoute GET "/:id" [] "getPokemonById";
    mkRoute POST "/" [authenticate s; authorize ["admin"]] "createPokemon";
    mkRoute PUT "/:id" [authenticate s; authorize ["admin"]] "updatePokemon";
    mkRoute DELETE "/:id" [authenticate s; authorize ["admin"]] "deletePokemon" ].

End WithLibraries.

Section Login.

(** [bcrypt.compare(data, hash)]: a boolean, or the message of the error
    it rejects with. An argument may be undefined. *)
Variable bcrypt_compare : option string → option string → string + bool.
Variable jwt_sign : Payload → option string → string → option string.
Variable jwt_verify : string → option string → option Payload.

(** [User.findOne({ username })]: the first document, in insertion
    order, whose username is the given one; an undefined username matches
    a document that has none. *)
Definition findOne (username : option string) (s : Server) : option Document :=
  snd <$> list_find (λ u, fields u !! "username" = username) (users s).

(** [userSchema.methods.comparePassword] *)
Definition comparePassword (u : Document) (password : option string)
    : string + bool :=
  bcrypt_compare password (fields u !! "password").

(** [exports.login]. An exception of [bcrypt.compare] or of [jwt.sign] is
    answered 500 with its message. *)
Definition login (req : Request) (s : Server) : Response * Server :=
  match findOne (body req !! "username") s with
  | None => (mkResponse 400 (JMessage "User not found"), s)
  | Some user =>
      match comparePassword user (body req !! "password") with
      | inl msg => (mkResponse 500 (JMessage msg), s)
      | inr false => (mkResponse 400 (JMessage "Invalid credentials"), s)
      | inr true =>
          match generateToken jwt_sign user s with
          | Some token => (mkResponse 200 (JToken token), s)
          | None =>
              (mkResponse 500 (JMessage "secretOrPrivateKey must have a value"), s)
          end
      end
  end.

(** routes/pokemonRoutes.js as first protected (Step 4): the mutating
    routes are behind [authenticate] only. *)
Definition pokemonRoutes_authenticated (s : Server) : list Route :=
  [ mkRoute GET "/" [] "getAllPokemon";
    mkRoute GET "/:id" [] "getPokemonById";
    mkRoute POST "/" [authenticate jwt_verify s] "createPokemon";
    mkRoute PUT "/:id" [authenticate jwt_verify s] "updatePokemon";
    mkRoute DELETE "/:id" [authenticate jwt_verify s] "deletePokemon" ].

End Login.

(** The usernames of the stored users, in insertion order. *)
Definition usernames (s : Server) : list (option string) :=
  (λ u, fields u !! "username") <$> users s.

(** What the error of a refused [save] says about the request and the
    collection: which check of [userSchema] failed. *)
Definition rejection (req : Request) (s : Server) (e : SaveError) : Prop :=
  match e with
  | RequiredError p =>
      p ∈ ["username"; "password"] ∧ body req !! p ∈ [None; Some ""]
  | EnumError p v =>
      p = "role" ∧ body req !! "role" = Some v ∧ v ∉ ["admin"; "user"]
  | DuplicateKey p v =>
      p = "username" ∧ body req !! "username" = Some v ∧ Some v ∈ usernames s
  end.

(** A stored document that satisfies [userSchema]: a non-empty username,
    a password, a role of the enum. *)
Definition schema_ok (d : Document) : Prop :=
  (∃ u, fields d !! "username" = Some u ∧ u ≠ "") ∧
  is_Some (fields d !! "password") ∧
  (∃ r, fields d !! "role" = Some r ∧ r ∈ ["admin"; "user"]).

(** The vocabulary of the access-control gate: the decision that a run of
    [authorize] amounts to. The middleware has one way to refuse, the
    403 answer given when the role is not listed for the route. *)
Inductive Reason := NoRuleDefined | NotOwner.

Inductive Decision :=
| Allow
| Deny (reason : Reason).

Definition decision (st : Step) : option Decision :=
  match st with
  | Next _ => Some Allow
  | Respond res => if bool_decide (status res = 403%Z) then Some (Deny NoRuleDefined) else None
  | Raise _ => None
  end.

(** Stand-ins for the libraries and a small deployment, used to run the
    endpoints on concrete requests. *)
Definition demo_hash (pw : string) (rounds : nat) : string :=
  "$2b$" +:+ pretty rounds +:+ "$" +:+ pw.

Definition demo_sign (p : Payload) (secret : option string)
    (expiresIn : string) : option string :=
  match secret with
  | Some k =>
      if decide (k = "") then None
      else Some (id p +:+ "." +:+ option.default "" (role p) +:+ "." +:+ k)
  | None => None
  end.

Definition demo_ObjectId (n : nat) : string := "id" +:+ pretty n.

Definition demo_server : Server :=
  mkServer [] 0 {[ "JWT_SECRET" := "s3cret" ]}.

(** A registration that asks for the admin role, sent without any
    credential. *)
Definition admin_registration : Request :=
  mkRequest ∅ ∅
    {[ "username" := "mallory"; "password" := "pw"; "role" := "admin" ]}
    None.

(** A registration that leaves the role to the schema default. *)
Definition user_registration : Request :=
  mkRequest ∅ ∅ {[ "username" := "ash"; "password" := "pikachu" ]} None.

(** A request of a principal with the user role. *)
Definition user_request : Request :=
  mkRequest ∅ ∅ ∅ (Some (mkPayload "u1" (Some "user"))).

(** [jwt.sign] one hour later: the same token with another time of
    issue. *)
Definition demo_sign_later (p : Payload) (secret : option string)
    (expiresIn : string) : option string :=
  (λ t, t +:+ "@3600") <$> demo_sign p secret expiresIn.

(** Stand-ins for [bcrypt.compare] and [jwt.verify] that agree with
    [demo_hash] and, on the token of the admin registration, with
    [demo_sign]. *)
Definition demo_compare (pw hash : option string) : string + bool :=
  match pw, hash with
  | Some p, Some h => inr (bool_decide (h = demo_hash p 10))
  | _, _ => inl "data and hash arguments required"
  end.

Definition demo_verify (token : string) (secret : option string)
    : option Payload :=
  if bool_decide (token = "id0.admin.s3cret" ∧ secret = Some "s3cret")
  then Some (mkPayload "id0" (Some "admin"))
  else if bool_decide (token = "id1.user.s3cret" ∧ secret = Some "s3cret")
  then Some (mkPayload "id1" (Some "user"))
  else None.

(** The deployment after the admin registration. *)
Definition registered_server : Server :=
  (register demo_hash demo_sign demo_ObjectId admin_registration demo_server).2.

(** A deployment without a signing secret. *)
Definition unsigned_server : Server := mkServer [] 0 ∅.

(** A registration that asks for a role outside the enum. *)
Definition root_registration : Request :=
  mkRequest ∅ ∅
    {[ "username" := "eve"; "password" := "pw"; "role" := "root" ]}
    None.

(** Requests that present the token of the admin, with and without the
    scheme, and the token of a user. *)
Definition admin_call : Request :=
  mkRequest {[ "Authorization" := "Bearer id0.admin.s3cret" ]} ∅ ∅ None.

Definition bare_call : Request :=
  mkRequest {[ "Authorization" := "id0.admin.s3cret" ]} ∅ ∅ None.

Definition user_call : Request :=
  mkRequest {[ "Authorization" := "Bearer id1.user.s3cret" ]} ∅ ∅ None.

End Auth.

(** ** The access control gate

    README-auth.md's [authorize] decides on the role alone; the rules
    marked owner-only and the resource hint that the specification adds
    to the gate are not in the repository, and the definitions below are
    modelled on the specification. *)

Module Gate.

(** Modelled from the spec: the operation kinds, an extensible set. *)
Inductive OperationKind :=
| Read
| Create
| Update
| Delete
| Custom (name : string).

Global Instance OperationKind_eq_dec : EqDecision OperationKind.
Proof. solve_decision. Defined.

(** Modelled from the spec: a Principal, the verified (subject
    identifier, role) pair. *)
Record Principal := mkPrincipal {
  subject : string;
  role : string
}.

(** Modelled from the spec: an entry of the Permission Table: allow or
    deny, and whether the rule is marked owner-only. *)
Record Rule := mkRule {
  allows : bool;
  owner_only : bool
}.

(** Modelled from the spec: the Permission Table, a mapping from (role,
    operation kind) to a rule; the first entry for a pair is the one
    that counts. *)
Definition PermissionTable : Type := list (string * OperationKind * Rule).

(** Modelled from the spec: the resource hint, which may carry the
    identifier of the owner of the resource. *)
Record ResourceHint := mkHint {
  owner : option string
}.

(** Modelled from the spec: the reasons of a denial. The specification
    names [NoRuleDefined] and [NotOwner]; an entry that denies is kept
    apart from both. *)
Inductive Reason :=
| NoRuleDefined
| NotOwner
| DeniedByRule.

Inductive Decision :=
| Allow
| Deny (reason : Reason).

(** Modelled from the spec: the lookup, an exact match on (role,
    operation kind). *)
Fixpoint rule_for (table : PermissionTable) (r : string) (op : OperationKind)
    : option Rule :=
  match table with
  | [] => None
  | (r', op', rule) :: rest =>
      if decide (r' = r ∧ op' = op) then Some rule else rule_for rest r op
  end.

(** Modelled from the spec:
    [authorize(principal, operationKind, resourceHint?)]. Without a rule
    for the pair the answer is Deny(NoRuleDefined). When the hint
    carries an owner identifier and the rule is marked owner-only, a
    principal that is not the owner gets Deny(NotOwner). Otherwise the
    rule decides. *)
Definition authorize (table : PermissionTable) (p : Principal)
    (op : OperationKind) (hint : option ResourceHint) : Decision :=
  match rule_for table (role p) op with
  | None => Deny NoRuleDefined
  | Some rule =>
      match hint ≫= owner with
      | Some o =>
          if owner_only rule && negb (bool_decide (subject p = o))
          then Deny NotOwner
          else if allows rule then Allow else Deny DeniedByRule
      | None => if allows rule then Allow else Deny DeniedByRule
      end
  end.

(** The table that a route of README-auth.md stands for: the roles
    passed to [authorize(roles)] are allowed the operation of the route,
    with no rule marked owner-only. *)
Definition table_of (roles : list string) (op : OperationKind)
    : PermissionTable :=
  (λ r, (r, op, mkRule true false)) <$> roles.


End Gate.

(** ** The reference resolver

    README.md only calls the ODM ([User.findById(id).populate('posts')]);
    the resolver that such a call stands for is described by the
    specification, and the definitions below are modelled on it. The
    schemas are the ones README.md declares. *)

Module Resolver.

(** Modelled from the spec: the primitive values of a Document (the
    repository has no value type of its own). *)
Inductive Prim :=
| PString (s : string)
| PNumber (n : Z)
| PBool (b : bool).

(** Modelled from the spec: a Reference, the typed pointer
    (target collection name, target identifier). *)
Record Reference := mkRef {
  target : string;
  ident : Z
}.

Global Instance Reference_eq_dec : EqDecision Reference.
Proof. solve_decision. Defined.

#[local] Unset Elimination Schemes.

(** Modelled from the spec: the values of a Document (primitives, embedded
    documents, References, ordered sequences) and what resolution puts in
    the place of a Reference: the populated target, the "unresolved"
    marker, the "already-expanding" marker. *)
Inductive Value :=
| VPrim (p : Prim)
| VEmbedded (fs : list (string * Value))
| VRef (r : Reference)
| VSeq (vs : list Value)
| VDoc (c : string) (i : Z) (fs : list (string * Value))
| VUnresolved (r : Reference)
| VAlreadyExpanding (r : Reference).

#[local] Set Elimination Schemes.

(** Modelled from the spec: a Document is a mapping from field name to
    value; the fields are kept in declaration order. *)
Abbreviation Fields := (list (string * Value)).

(** Modelled from the spec: a Document of a Collection, with the unique
    identifier it was given at creation. *)
Record Document := mkDocument {
  collection : string;
  key : Z;
  content : Fields
}.

(** Modelled from the spec: reading a field of a Document. *)
Fixpoint field (f : string) (fs : Fields) : option Value :=
  match fs with
  | [] => None
  | (g, v) :: rest => if decide (g = f) then Some v else field f rest
  end.

(** Modelled from the spec: the expanded copy differs from the Document
    in the resolved field only; the field keeps its position. *)
Fixpoint set_field (f : string) (v : Value) (fs : Fields) : Fields :=
  match fs with
  | [] => []
  | (g, old) :: rest =>
      if decide (g = f) then (g, v) :: rest else (g, old) :: set_field f v rest
  end.

(** Modelled from the spec: the declared type of a field. *)
Inductive FieldType :=
| TPrim
| TEmbedded
| TRef (c : string)          (* Reference *)
| TRefSeq (c : string).      (* ordered sequence of References *)

(** Modelled from the spec: a field-path specification, optionally
    restricted to a subset of the target's fields (the projection). *)
Record PathSpec := mkPath {
  path : string;
  select : option (list string)
}.

(** Modelled from the spec: the storage collaborator and the record of
    the batched lookups sent to it, oldest first. *)
Record World := mkWorld {
  storage : gmap string (gmap Z Fields);
  log : list (string * list Z)
}.

(** Modelled from the spec: [getById(collection, id) -> Document | NotFound]. *)
Definition getById (st : gmap string (gmap Z Fields)) (c : string) (i : Z)
    : option Fields :=
  st !! c ≫= λ docs, docs !! i.

(** Modelled from the spec: [getBatch(collection, ids) -> mapping id ->
    Document|NotFound]; one call is one batched lookup. *)
Definition getBatch (c : string) (ids : list Z) (w : World)
    : list (Z * option Fields) * World :=
  ((λ i, (i, getById (storage w) c i)) <$> ids,
   mkWorld (storage w) (log w ++ [(c, ids)])).

(** Modelled from the spec: the segments of a dotted path such as
    [bestFriend.bestFriend]. *)
Fixpoint segments (s : string) : list string :=
  match s with
  | EmptyString => [EmptyString]
  | String c s' =>
      if decide (String c EmptyString = ".") then EmptyString :: segments s'
      else match segments s' with
           | [] => [String c EmptyString]
           | seg :: rest => String c seg :: rest
           end
  end.

(** Modelled from the spec: each path must name a field whose declared
    type is Reference or an ordered sequence of References; a nested
    path continues in the schema of the target collection. *)
Fixpoint check_path (schema : gmap string (gmap string FieldType))
    (c : string) (segs : list string) : bool :=
  match segs with
  | [] => true
  | f :: rest =>
      match schema !! c ≫= λ decl, decl !! f with
      | Some (TRef c') | Some (TRefSeq c') =>
          negb (bool_decide (f = "")) && check_path schema c' rest
      | _ => false
      end
  end.

(** Modelled from the spec: the References held by a field that is a
    Reference or a sequence of References, in order. *)
Definition refs_of (v : Value) : list Reference :=
  match v with
  | VRef r => [r]
  | VSeq vs => omap (λ x, match x with VRef r => Some r | _ => None end) vs
  | _ => []
  end.

(** Modelled from the spec: the distinct target collections of a field. *)
Definition target_collections (refs : list Reference) : list string :=
  remove_dups (target <$> refs).

(** Modelled from the spec: the distinct target identifiers of a field
    for one collection. *)
Definition distinct_ids (c : string) (refs : list Reference) : list Z :=
  remove_dups (ident <$> filter (λ r, target r = c) refs).

(** Modelled from the spec: a single batched lookup per distinct target
    collection. *)
Fixpoint fetch (cs : list string) (refs : list Reference) (w : World)
    : list (string * list (Z * option Fields)) * World :=
  match cs with
  | [] => ([], w)
  | c :: cs' =>
      let '(found, w1) := getBatch c (distinct_ids c refs) w in
      let '(more, w2) := fetch cs' refs w1 in
      ((c, found) :: more, w2)
  end.

(** The first value recorded for a key. *)
Fixpoint assoc {K V : Type} `{EqDecision K} (k : K) (l : list (K * V))
    : option V :=
  match l with
  | [] => None
  | (k', v) :: l' => if decide (k' = k) then Some v else assoc k l'
  end.

(** Modelled from the spec: what the batched lookups returned for a
    Reference; [None] is NotFound. *)
Definition fetched (results : list (string * list (Z * option Fields)))
    (r : Reference) : option Fields :=
  match assoc (target r) results with
  | Some batch =>
      match assoc (ident r) batch with
      | Some found => found
      | None => None
      end
  | None => None
  end.

(** Modelled from the spec: the projection keeps the selected fields of
    the target. *)
Definition project (sel : option (list string)) (fs : Fields) : Fields :=
  match sel with
  | Some names => filter (λ kv, kv.1 ∈ names) fs
  | None => fs
  end.

(** Modelled from the spec: the storage read for one Reference. *)
Definition lookup (st : gmap string (gmap Z Fields)) (r : Reference)
    : option Fields :=
  getById st (target r) (ident r).

(** Modelled from the spec: the positions of a field: those of an
    ordered sequence, the single position of any other value. *)
Definition elements (v : Value) : list Value :=
  match v with
  | VSeq vs => vs
  | _ => [v]
  end.

(** Modelled from the spec: a field value that a path expands, with the
    (collection, id) pairs being expanded along the chain above it. *)
Abbreviation Item := (list (string * Z) * Value)%type.

(** Modelled from the spec: the References of one level of a path: those
    of the requested field, across all the values the level expands. *)
Definition level_refs (items : list Item) : list Reference :=
  items ≫= λ it, refs_of it.2.

(** Modelled from the spec: expansion continues inside the target of a
    Reference when the target exists and its pair is not on the chain. *)
Definition entered (found : Reference → option Fields)
    (chain : list (string * Z)) (x : Value) : option (Reference * Fields) :=
  match x with
  | VRef r =>
      match found r with
      | Some tfs =>
          if bool_decide ((target r, ident r) ∈ chain) then None
          else Some (r, tfs)
      | None => None
      end
  | _ => None
  end.

(** Modelled from the spec: the values the next segment [g] of a nested
    path expands: field [g] of every target entered at this level, each
    with its own chain. *)
Definition next_items (found : Reference → option Fields) (g : string)
    (items : list Item) : list Item :=
  items ≫= λ it, elements it.2 ≫= λ x,
    match entered found it.1 x with
    | Some (r, tfs) =>
        match field g tfs with
        | Some v2 => [((target r, ident r) :: it.1, v2)]
        | None => []
        end
    | None => []
    end.

(** A map that threads a state through the elements, left to right. *)
Fixpoint traverse {A B S : Type} (f : A → S → B * S) (l : list A) (s : S)
    : list B * S :=
  match l with
  | [] => ([], s)
  | x :: l' =>
      let '(y, s1) := f x s in
      let '(ys, s2) := traverse f l' s1 in
      (y :: ys, s2)
  end.

(** Modelled from the spec: splicing a result into the position of its
    Reference. A missing target gives the "unresolved" marker; a target
    whose pair is on the chain gives the "already-expanding" marker; a
    target that is entered takes, for a nested path, the next expanded
    value of the level below ([kids], in the order of [next_items]), and
    the projection at the end of the path. *)
Definition splice_elem (found : Reference → option Fields)
    (rest : list string) (sel : option (list string))
    (chain : list (string * Z)) (x : Value) (kids : list Value)
    : Value * list Value :=
  match x with
  | VRef r =>
      match found r with
      | None => (VUnresolved r, kids)
      | Some tfs =>
          if bool_decide ((target r, ident r) ∈ chain)
          then (VAlreadyExpanding r, kids)
          else match rest with
               | [] => (VDoc (target r) (ident r) (project sel tfs), kids)
               | g :: _ =>
                   match field g tfs, kids with
                   | Some _, kid :: kids' =>
                       (VDoc (target r) (ident r) (set_field g kid tfs), kids')
                   | _, _ => (VDoc (target r) (ident r) tfs, kids)
                   end
               end
      end
  | other => (other, kids)
  end.

(** Modelled from the spec: the results are spliced into the positions
    of one field value; a sequence keeps its order. *)
Definition splice_item (found : Reference → option Fields)
    (rest : list string) (sel : option (list string)) (it : Item)
    (kids : list Value) : Value * list Value :=
  match it.2 with
  | VSeq vs =>
      let '(vs', kids') := traverse (splice_elem found rest sel it.1) vs kids in
      (VSeq vs', kids')
  | x => splice_elem found rest sel it.1 x kids
  end.

(** Modelled from the spec: expansion of one level of a path and of the
    levels below it. The distinct target identifiers of the level are
    collected across its values, a single batched lookup is issued per
    distinct target collection, the next segment is expanded in the
    targets entered, and the results are spliced back. [rest] is the
    remainder of the nested path. *)
Fixpoint expand_level (rest : list string) (sel : option (list string))
    (items : list Item) (w : World) : list Value * World :=
  let refs := level_refs items in
  let '(results, w1) := fetch (target_collections refs) refs w in
  match rest with
  | [] => ((traverse (splice_item (fetched results) [] sel) items []).1, w1)
  | g :: rest' =>
      let '(kids, w2) :=
        expand_level rest' sel (next_items (fetched results) g items) w1 in
      ((traverse (splice_item (fetched results) (g :: rest') sel) items kids).1,
       w2)
  end.

(** Modelled from the spec: expansion of the value of a requested field.
    [chain] holds the pair of the Document the field belongs to. *)
Definition expand_value (rest : list string) (sel : option (list string))
    (chain : list (string * Z)) (v : Value) (w : World) : Value * World :=
  let '(vs, w') := expand_level rest sel [(chain, v)] w in
  (option.default v (head vs), w').

(** Modelled from the spec: what a path leaves in the place of one
    Reference, read off the storage directly. *)
Definition expansion_elem (st : gmap string (gmap Z Fields))
    (inside : Reference → Fields → Fields) (chain : list (string * Z))
    (x : Value) : Value :=
  match x with
  | VRef r =>
      match lookup st r with
      | None => VUnresolved r
      | Some tfs =>
          if bool_decide ((target r, ident r) ∈ chain)
          then VAlreadyExpanding r
          else VDoc (target r) (ident r) (inside r tfs)
      end
  | other => other
  end.

(** Modelled from the spec: the expanded value of a field, read off the
    storage one Reference at a time. This is what the level-wise
    [expand_level] is checked against. *)
Fixpoint expansion (st : gmap string (gmap Z Fields)) (rest : list string)
    (sel : option (list string)) (chain : list (string * Z)) (v : Value)
    : Value :=
  let inside (r : Reference) (tfs : Fields) : Fields :=
    match rest with
    | [] => project sel tfs
    | g :: rest' =>
        match field g tfs with
        | Some v2 =>
            set_field g (expansion st rest' sel ((target r, ident r) :: chain) v2)
                      tfs
        | None => tfs
        end
    end in
  match v with
  | VSeq vs => VSeq (expansion_elem st inside chain <$> vs)
  | _ => expansion_elem st inside chain v
  end.

(** Modelled from the spec: how expansion continues inside a target that
    is entered, as [expansion] does it. *)
Definition inside_target (st : gmap string (gmap Z Fields))
    (rest : list string) (sel : option (list string))
    (chain : list (string * Z)) (r : Reference) (tfs : Fields) : Fields :=
  match rest with
  | [] => project sel tfs
  | g :: rest' =>
      match field g tfs with
      | Some v2 =>
          set_field g (expansion st rest' sel ((target r, ident r) :: chain) v2)
                    tfs
      | None => tfs
      end
  end.

(** Modelled from the spec: the References of every level of a path,
    outermost level first, read off the storage. *)
Fixpoint levels (st : gmap string (gmap Z Fields)) (rest : list string)
    (items : list Item) : list (list Reference) :=
  level_refs items ::
  match rest with
  | [] => []
  | g :: rest' => levels st rest' (next_items (lookup st) g items)
  end.

(** Modelled from the spec: the levels of all the paths of a [resolve]
    call, in path order. *)
Definition requested (st : gmap string (gmap Z Fields)) (d : Document)
    (paths : list PathSpec) : list (list Reference) :=
  paths ≫= λ p,
    match segments (path p) with
    | [] => []
    | f :: rest =>
        match field f (content d) with
        | Some v => levels st rest [([(collection d, key d)], v)]
        | None => []
        end
    end.


(** Modelled from the spec: the batched lookups of one field, a single
    one per distinct target collection, each for the distinct identifiers
    referenced in that collection. *)
Definition batches_of (refs : list Reference) : list (string * list Z) :=
  (λ c, (c, distinct_ids c refs)) <$> target_collections refs.


(** Modelled from the spec: the element at a position of a field: the
    k-th element of a sequence, the value itself at position 0 of a
    field that holds a single value. *)
Definition element (v : Value) (k : nat) : option Value :=
  match v with
  | VSeq vs => vs !! k
  | _ => match k with 0 => Some v | S _ => None end
  end.

(** Modelled from the spec: the "unresolved" marker stands at the
    position of the Reference [r] of field [f], and a sequence has kept
    its length: nothing was omitted. *)
Definition unresolved_at (f : string) (k : nat) (r : Reference) (v : Value)
    (out : Fields) : Prop :=
  ∃ v', field f out = Some v' ∧ element v' k = Some (VUnresolved r) ∧
        ∀ vs, v = VSeq vs → ∃ vs', v' = VSeq vs' ∧ length vs' = length vs.

(** The fields named by a set of paths: their first segments. *)
Definition heads (paths : list PathSpec) : list string :=
  omap (λ p, head (segments (path p))) paths.

(** Modelled from the spec: a malformed path has an empty segment. *)
Definition malformed (s : string) : Prop := "" ∈ segments s.

(** Modelled from the spec: a known path names, segment by segment, a
    declared field of type Reference or sequence of References. *)
Inductive known (schema : gmap string (gmap string FieldType))
    : string → list string → Prop :=
| known_end c : known schema c []
| known_ref c f c' rest decl :
    schema !! c = Some decl → decl !! f = Some (TRef c') →
    known schema c' rest → known schema c (f :: rest)
| known_seq c f c' rest decl :
    schema !! c = Some decl → decl !! f = Some (TRefSeq c') →
    known schema c' rest → known schema c (f :: rest).

(** Modelled from the spec: one requested path. It is expanded from the
    Document as stored and its result is merged into the output. *)
Definition resolve_path (d : Document) (p : PathSpec) (out : Fields)
    (w : World) : Fields * World :=
  match segments (path p) with
  | [] => (out, w)
  | f :: rest =>
      match field f (content d) with
      | Some v =>
          let '(v', w') :=
            expand_value rest (select p) [(collection d, key d)] v w in
          (set_field f v' out, w')
      | None => (out, w)
      end
  end.

(** Modelled from the spec: the paths are merged in path order. *)
Fixpoint resolve_paths (d : Document) (ps : list PathSpec) (out : Fields)
    (w : World) : Fields * World :=
  match ps with
  | [] => (out, w)
  | p :: ps' =>
      let '(out', w') := resolve_path d p out w in
      resolve_paths d ps' out' w'
  end.

(** Modelled from the spec: the error of a malformed or unknown path. *)
Inductive Error := ResolutionError.

(** Modelled from the spec: [resolve(document, paths) -> expandedDocument].
    All paths are checked before anything is looked up. *)
Definition resolve (schema : gmap string (gmap string FieldType))
    (d : Document) (paths : list PathSpec) (w : World)
    : (Error + Document) * World :=
  if forallb (λ p, check_path schema (collection d) (segments (path p))) paths
  then let '(out, w') := resolve_paths d paths (content d) w in
       (inr (mkDocument (collection d) (key d) out), w')
  else (inl ResolutionError, w).

(** Modelled from the spec: one requested path merged into the output,
    with the expanded value read off the storage. *)
Definition merge_path (st : gmap string (gmap Z Fields)) (d : Document)
    (out : Fields) (p : PathSpec) : Fields :=
  match segments (path p) with
  | [] => out
  | f :: rest =>
      match field f (content d) with
      | Some v =>
          set_field f (expansion st rest (select p) [(collection d, key d)] v)
                    out
      | None => out
      end
  end.









(** The schemas declared in README.md ([userSchema] with its embedded
    profile and its referenced posts, [postSchema], [studentSchema],
    [courseSchema]). *)
Definition tutorialSchema : gmap string (gmap string FieldType) :=
  {[ "User" := {[ "name" := TPrim; "email" := TPrim;
                  "profile" := TEmbedded; "posts" := TRefSeq "Post" ]};
     "Post" := {[ "title" := TPrim; "content" := TPrim ]};
     "Student" := {[ "name" := TPrim; "courses" := TRefSeq "Course" ]};
     "Course" := {[ "title" := TPrim; "students" := TRefSeq "Student" ]} ]}.


(** Modelled from the spec: the end-to-end scenario, user 1 referencing
    post 10 and the missing post 11. *)
Definition post10 : Fields :=
  [ ("title", VPrim (PString "First Post"));
    ("content", VPrim (PString "Hello, world!")) ].

Definition user1 : Document :=
  mkDocument "User" 1
    [ ("name", VPrim (PString "Alice"));
      ("posts", VSeq [VRef (mkRef "Post" 10); VRef (mkRef "Post" 11)]) ].

Definition scenario : World :=
  mkWorld {[ "User" := {[ 1%Z := content user1 ]};
             "Post" := {[ 10%Z := post10 ]} ]} [].










End Resolver.

(** ** README.md: the validator of the email path *)

Module EmailValidator.

(** A JavaScript string: its UTF-16 code units. *)
Abbreviation JsString := (list N).

(** The regular expressions the validator's pattern is built from. The
    pattern has no capture, lookaround or backreference, so whether the
    engine finds a match is membership in the language of the expression. *)
Inductive Regex :=
| Void
| Eps
| Class (p : N → bool)
| Cat (r1 r2 : Regex)
| Alt (r1 r2 : Regex)
| Star (r : Regex).

(** [r+] *)
Definition Plus (r : Regex) : Regex := Cat r (Star r).

Inductive matches : Regex → JsString → Prop :=
| matches_eps : matches Eps []
| matches_class p c : p c = true → matches (Class p) [c]
| matches_cat r1 r2 s1 s2 :
    matches r1 s1 → matches r2 s2 → matches (Cat r1 r2) (s1 ++ s2)
| matches_alt_l r1 r2 s : matches r1 s → matches (Alt r1 r2) s
| matches_alt_r r1 r2 s : matches r2 s → matches (Alt r1 r2) s
| matches_star_nil r : matches (Star r) []
| matches_star_more r s1 s2 :
    matches r s1 → matches (Star r) s2 → matches (Star r) (s1 ++ s2).

Fixpoint nullable (r : Regex) : bool :=
  match r with
  | Void => false
  | Eps => true
  | Class _ => false
  | Cat r1 r2 => nullable r1 && nullable r2
  | Alt r1 r2 => nullable r1 || nullable r2
  | Star _ => true
  end.

Fixpoint deriv (c : N) (r : Regex) : Regex :=
  match r with
  | Void => Void
  | Eps => Void
  | Class p => if p c then Eps else Void
  | Cat r1 r2 =>
      if nullable r1 then Alt (Cat (deriv c r1) r2) (deriv c r2)
      else Cat (deriv c r1) r2
  | Alt r1 r2 => Alt (deriv c r1) (deriv c r2)
  | Star r1 => Cat (deriv c r1) (Star r1)
  end.

(** [/^r$/.test(s)] *)
Definition test (r : Regex) (s : JsString) : bool :=
  nullable (foldl (λ r c, deriv c r) r s).

(** [\s]: the white space and line terminator code units. *)
Definition is_space (c : N) : bool :=
  bool_decide (c ∈ [9; 10; 11; 12; 13; 32; 160; 5760; 8232; 8233; 8239;
                    8287; 12288; 65279]%N)
  || ((8192 <=? c)%N && (c <=? 8202)%N).

(** [[^\s@]] *)
Definition plain (c : N) : bool := negb (is_space c || (c =? 64)%N).

(** [/^[^\s@]+@[^\s@]+\.[^\s@]+$/] *)
Definition email_pattern : Regex :=
  Cat (Plus (Class plain))
      (Cat (Class (λ c, (c =? 64)%N))
           (Cat (Plus (Class plain))
                (Cat (Class (λ c, (c =? 46)%N))
                     (Plus (Class plain))))).

(** The [validator] function of the email path. *)
Definition validator (v : JsString) : bool := test email_pattern v.

(** The code units of a string of ASCII characters. *)
Fixpoint code_units (s : string) : JsString :=
  match s with
  | EmptyString => []
  | String c s' => Ascii.N_of_ascii c :: code_units s'
  end.

End EmailValidator.

(** * Properties *)

(** ** config/db.js and app.js *)

Section ProcessFacts.
Import Node.

(** Once the process has exited, no event changes it. *)
Lemma deliver_exited (ev : App.Event) (p : Process) (code : Z) :
  exit_code p = Some code → App.deliver ev p = p.
Proof. intros H. unfold App.deliver. by rewrite H. Qed.

Lemma run_exited (evs : list App.Event) (p : Process) (code : Z) :
  exit_code p = Some code → App.run evs p = p.
Proof.
  intros H. induction evs as [|ev evs IH]; [done|].
  unfold App.run in *. simpl. by rewrite (deliver_exited ev p code).
Qed.

(** *** Decimal numerals as ports *)

Lemma digit_of_decimal (c : ascii) (d : N) :
  digit_of 10 c = Some d →
  is_white c = false ∧ c ≠ "+"%char ∧ c ≠ "-"%char ∧ c ≠ "I"%char ∧
  c ≠ "x"%char ∧ c ≠ "X"%char ∧ c ≠ "o"%char ∧ c ≠ "O"%char ∧
  c ≠ "b"%char ∧ c ≠ "B"%char.
Proof.
  destruct c as [[] [] [] [] [] [] [] []]; vm_compute; intros [=];
    repeat split; congruence.
Qed.

Lemma span_digits_whole (base : N) (cs : list ascii) (ds : list N) :
  span_digits base cs = (ds, []) →
  Forall (λ c, is_Some (digit_of base c)) cs ∧ length ds = length cs.
Proof.
  revert ds. induction cs as [|c cs IH]; intros ds; simpl.
  - intros [= <-]. by split.
  - destruct (digit_of base c) as [d|] eqn:Hd; [|done].
    destruct (span_digits base cs) as [ds' rest] eqn:Hs.
    intros [= <- ->]. destruct (IH ds' eq_refl) as [Hall Hlen].
    split; [constructor; eauto|]. simpl. by rewrite Hlen.
Qed.

Lemma drop_white_digits (cs : list ascii) :
  Forall (λ c, is_Some (digit_of 10 c)) cs → drop_white cs = cs.
Proof.
  destruct 1 as [|c cs [d Hc] _]; [done|]. simpl.
  by destruct (digit_of_decimal c d Hc) as [-> _].
Qed.

Lemma trim_digits (cs : list ascii) :
  Forall (λ c, is_Some (digit_of 10 c)) cs → trim cs = cs.
Proof.
  intros H. unfold trim. rewrite (drop_white_digits cs H).
  rewrite drop_white_digits by (by apply Forall_reverse).
  apply reverse_involutive.
Qed.

(** [Number] of a decimal numeral is its value. *)
Lemma to_number_numeral (s : string) (n : N) :
  numeral s = Some n → to_number s = SDecimal false n 0.
Proof.
  unfold numeral, to_number.
  destruct (span_digits 10 (String.list_ascii_of_string s)) as [ds rest] eqn:Hs.
  destruct ds as [|d ds]; [done|]. destruct rest; [|done]. intros [= <-].
  destruct (span_digits_whole _ _ _ Hs) as [Hall _].
  rewrite (trim_digits _ Hall).
  destruct (String.list_ascii_of_string s) as [|c cs] eqn:Hcs; [done|].
  inversion Hall as [|? ? [d0 Hc] Hall']; subst.
  destruct (digit_of_decimal c d0 Hc)
    as (_ & Hplus & Hminus & HI & _).
  assert (Hradix : radix_prefix (c :: cs) = None).
  { unfold radix_prefix. destruct c as [[] [] [] [] [] [] [] []]; try done.
    destruct cs as [|c' cs']; [done|].
    inversion Hall' as [|? ? [d1 Hc'] _]; subst.
    destruct (digit_of_decimal c' d1 Hc')
      as (_ & _ & _ & _ & Hx & HX & Ho & HO & Hb & HB).
    rewrite !bool_decide_eq_false_2; [done|naive_solver..]. }
  rewrite Hradix.
  assert (Hsign : signed (c :: cs) = (false, c :: cs)).
  { unfold signed. destruct c as [[] [] [] [] [] [] [] []]; done. }
  rewrite Hsign. rewrite bool_decide_eq_false_2.
  2:{ intros [= -> _]. done. }
  unfold decimal_literal. rewrite Hs. simpl. rewrite app_nil_r.
  by rewrite Z.sub_0_r.
Qed.

Lemma nearest_integer_exact (m : Z) : nearest_integer m 0 = m.
Proof.
  unfold nearest_integer.
  change (Z.max (- 0) 0) with 0%Z. change (Z.max 0 0) with 0%Z.
  change (10 ^ 0)%Z with 1%Z.
  symmetry. apply Z.div_unique with 1%Z; lia.
Qed.

Lemma scaled_le_exact (m a b : Z) :
  (b ≤ 0)%Z → scaled_le m 0 a b = (m * 2 ^ (- b) <=? a)%Z.
Proof.
  intros Hb. unfold scaled_le.
  change (Z.max (- 0) 0) with 0%Z. change (Z.max 0 0) with 0%Z.
  rewrite (Z.max_l (- b)), (Z.max_r b) by lia.
  change (10 ^ 0)%Z with 1%Z. change (2 ^ 0)%Z with 1%Z.
  by rewrite !Z.mul_1_r.
Qed.

Lemma scaled_ge_exact (m a b : Z) :
  (b ≤ 0)%Z → scaled_ge m 0 a b = (a <=? m * 2 ^ (- b))%Z.
Proof.
  intros Hb. unfold scaled_ge.
  change (Z.max (- 0) 0) with 0%Z. change (Z.max 0 0) with 0%Z.
  rewrite (Z.max_l (- b)), (Z.max_r b) by lia.
  change (10 ^ 0)%Z with 1%Z. change (2 ^ 0)%Z with 1%Z.
  by rewrite !Z.mul_1_r.
Qed.

(** An integer of the port range is the double nearest to itself. *)
Lemma within_half_gap_exact (m : Z) :
  (0 ≤ m ≤ 65535)%Z → within_half_gap m 0 m = true.
Proof.
  intros Hm. unfold within_half_gap.
  destruct (Z.eqb_spec m 0) as [->|Hne]; [done|].
  assert (Hk : (0 ≤ Z.log2 m < 16)%Z).
  { split; [apply Z.log2_nonneg|]. apply Z.log2_lt_pow2; lia. }
  cbn zeta. set (k := Z.log2 m) in *. clearbody k.
  rewrite !scaled_ge_exact, scaled_le_exact by lia.
  replace (- (k - 54))%Z with (54 - k)%Z by lia.
  replace (- (k - 53))%Z with (53 - k)%Z by lia.
  apply andb_true_iff. split; [destruct (m =? 2 ^ k)%Z|]; apply Z.leb_le; lia.
Qed.

Lemma integer_value_exact (n : N) :
  (N.le n 65535) → integer_value n 0 = Some (Z.of_N n).
Proof.
  intros Hn. unfold integer_value. rewrite nearest_integer_exact. cbn zeta.
  rewrite (proj2 (Z.ltb_ge 65535 (Z.of_N n))) by lia.
  by rewrite within_half_gap_exact by lia.
Qed.

Lemma integer_value_large (n : N) :
  (N.lt 65535 n) → integer_value n 0 = None.
Proof.
  intros Hn. unfold integer_value. rewrite nearest_integer_exact. cbn zeta.
  by rewrite (proj2 (Z.ltb_lt 65535 (Z.of_N n))) by lia.
Qed.

(** A decimal numeral is accepted as the TCP port it denotes when that is
    at most 65535, and refused otherwise. *)
Lemma listen_endpoint_numeral (s : string) (n : N) :
  numeral s = Some n →
  listen_endpoint (PortStr s) =
    if decide (N.le n 65535) then Some (Tcp (Z.of_N n)) else None.
Proof.
  intros Hs. unfold listen_endpoint. rewrite (to_number_numeral s n Hs).
  cbn [andb].
  assert (Htrim : trim (String.list_ascii_of_string s) ≠ []).
  { unfold numeral in Hs.
    destruct (span_digits 10 (String.list_ascii_of_string s)) as [ds rest] eqn:Hsp.
    destruct ds as [|d ds]; [done|]. destruct rest; [|done].
    destruct (span_digits_whole _ _ _ Hsp) as [Hall Hlen].
    rewrite (trim_digits _ Hall). intros Hnil. by rewrite Hnil in Hlen. }
  destruct (trim (String.list_ascii_of_string s)); [done|].
  case_decide as Hn.
  - by rewrite integer_value_exact.
  - rewrite integer_value_large; [done|lia].
Qed.

(** *** The start-up script *)

(** A successful connection, for comparison: the promise is fulfilled
    and the process keeps running. *)
Lemma connectDB_success (p : Process) (host : string) :
  let p' := Db.connectDB (Resolved host) p in
  connectDB_promise p' = Fulfilled ∧ exit_code p' = exit_code p ∧
  db p' = DbConnected host ∧
  console p' = console p ++ [mkLog Stdout ("MongoDB connected: " +:+ host)].
Proof. by destruct p. Qed.

(** C8: when [mongoose.connect] fails, [connectDB] logs the error message
    on the error stream and stops the process with exit code 1. Its body
    neither returns nor throws, so the promise handed to the caller stays
    pending: it is never fulfilled and never rejected, and nothing runs
    in the process afterwards. *)
Theorem connectDB_failure_exits (p : Process) (e : JsError) :
  let p' := Db.connectDB (Rejected e) p in
  (Db.connectDB_body (Rejected e) (Db.connectDB_call p)).1 = Exited ∧
  exit_code p' = Some 1%Z ∧
  console p' = console p ++ [mkLog Stderr ("Error: " +:+ message e)] ∧
  connectDB_promise p' = Pending ∧
  ∀ evs, connectDB_promise (App.run evs p') = Pending.
Proof.
  destruct p as [e0 f0 c0 x0 d0 q0 s0 a0]. simpl.
  repeat split.
  intros evs. by rewrite (run_exited evs _ 1%Z).
Qed.

Lemma before_listen_state (e file : gmap string string) :
  let p := App.before_listen e file in
  env p = e ∪ file ∧ db p = DbConnecting ((e ∪ file) !! "CLOUD_URI") ∧
  connectDB_promise p = Pending ∧ server p = NotStarted ∧
  exit_code p = None ∧ accepted p = 0 ∧ console p = [].
Proof.
  unfold App.before_listen, Db.connectDB_call, Db.load, dotenv_config. simpl.
  by rewrite <- (assoc_L (∪)), (idemp_L (∪) file).
Qed.

Lemma main_eq (e file : gmap string string) :
  App.main (boot e file) =
    match listen_endpoint (App.port_of (e ∪ file)) with
    | Some _ => set_server (Binding (App.port_of (e ∪ file))) (App.before_listen e file)
    | None => set_exit_code (Some 1%Z) (App.before_listen e file)
    end.
Proof.
  destruct (before_listen_state e file) as (He & _).
  unfold App.main. fold (App.before_listen e file).
  unfold App.app_listen, App.PORT. rewrite He.
  by destruct (listen_endpoint (App.port_of (e ∪ file))).
Qed.

(** The script leaves the connection attempt in flight, whatever
    [app.listen] does. *)
Lemma main_connecting (e file : gmap string string) :
  let p := App.main (boot e file) in
  env p = e ∪ file ∧ db p = DbConnecting ((e ∪ file) !! "CLOUD_URI") ∧
  connectDB_promise p = Pending ∧ accepted p = 0 ∧ console p = [].
Proof.
  cbv zeta. rewrite main_eq.
  destruct (before_listen_state e file) as (He & Hd & Hp & _ & _ & Ha & Hc).
  by destruct (listen_endpoint (App.port_of (e ∪ file))).
Qed.

(** When [app.listen] accepts the port, the script ends with the bind
    requested. *)
Lemma main_state (e file : gmap string string) :
  is_Some (listen_endpoint (App.port_of (e ∪ file))) →
  let p := App.main (boot e file) in
  db p = DbConnecting (env p !! "CLOUD_URI") ∧
  connectDB_promise p = Pending ∧
  server p = Binding (App.PORT p) ∧
  exit_code p = None ∧ accepted p = 0 ∧
  env p = e ∪ file.
Proof.
  intros [ep Hep]. cbv zeta.
  destruct (main_connecting e file) as (He & Hd & Hp & Ha & _).
  unfold App.PORT. rewrite He.
  repeat split; try done.
  all: rewrite main_eq, Hep.
  all: by destruct (before_listen_state e file) as (_ & _ & _ & ? & ? & _).
Qed.

(** When [app.listen] refuses the port, the script ends the process
    with exit code 1 and no server. *)
Lemma main_refused (e file : gmap string string) :
  listen_endpoint (App.port_of (e ∪ file)) = None →
  let p := App.main (boot e file) in
  exit_code p = Some 1%Z ∧ server p = NotStarted.
Proof.
  intros Hep. cbv zeta. rewrite main_eq, Hep.
  by destruct (before_listen_state e file) as (_ & _ & _ & ? & _).
Qed.

(** C9, as stated, fails in two ways. When PORT is set to the empty
    string the variable is set, yet the server is bound to 8080. When
    PORT is set to 99999 [app.listen] throws: the process ends with exit
    code 1, and no server ever listens or accepts a request. *)
Lemma startup_without_listening :
  let empty : gmap string string := {[ "PORT" := "" ]} in
  let large : gmap string string := {[ "PORT" := "99999" ]} in
  (env (App.main (boot empty ∅)) !! "PORT" = Some "" ∧
   server (App.main (boot empty ∅)) = Binding (PortNum 8080) ∧
   server (App.main (boot empty ∅)) ≠ Binding (PortStr "")) ∧
  (exit_code (App.main (boot large ∅)) = Some 1%Z ∧
   server (App.run [App.ServerBound; App.HttpRequest] (App.main (boot large ∅)))
     = NotStarted ∧
   accepted (App.run [App.ServerBound; App.HttpRequest] (App.main (boot large ∅)))
     = 0).
Proof. vm_compute. repeat split; congruence. Qed.

(** C9 (amended): [app.listen] is given the value of PORT when that is a
    non-empty string and 8080 when PORT is unset or empty, while the
    promise of [connectDB()] is pending. A decimal numeral up to 65535
    is accepted as that TCP port and a larger one is refused. When the
    value is accepted the bind is requested; once the socket is bound
    the server listens and accepts a request although the connection
    attempt has not settled. When the value is refused the call throws:
    the process ends with exit code 1 and never listens or accepts a
    request. *)
Theorem app_listens_without_waiting (e file : gmap string string) :
  let p := App.main (boot e file) in
  let q := App.deliver App.ServerBound p in
  (∀ s, (e ∪ file) !! "PORT" = Some s → s ≠ "" → App.PORT p = PortStr s) ∧
  ((e ∪ file) !! "PORT" = None ∨ (e ∪ file) !! "PORT" = Some "" →
   App.PORT p = PortNum 8080 ∧ listen_endpoint (App.PORT p) = Some (Tcp 8080)) ∧
  (∀ s n, (e ∪ file) !! "PORT" = Some s → numeral s = Some n →
     listen_endpoint (App.PORT p) =
       if decide (N.le n 65535) then Some (Tcp (Z.of_N n)) else None) ∧
  connectDB_promise p = Pending ∧
  db p = DbConnecting ((e ∪ file) !! "CLOUD_URI") ∧
  (is_Some (listen_endpoint (App.PORT p)) →
   exit_code p = None ∧ server p = Binding (App.PORT p) ∧
   server q = Listening (App.PORT p) ∧
   connectDB_promise q = Pending ∧
   db q = DbConnecting ((e ∪ file) !! "CLOUD_URI") ∧
   accepted (App.deliver App.HttpRequest q) = 1) ∧
  (listen_endpoint (App.PORT p) = None →
   exit_code p = Some 1%Z ∧
   ∀ evs, server (App.run evs p) = NotStarted ∧ accepted (App.run evs p) = 0).
Proof.
  intros p q.
  destruct (main_connecting e file) as (Henv & Hdb & Hpr & Hacc & _).
  fold p in Henv, Hdb, Hpr, Hacc.
  assert (HP : App.PORT p = App.port_of (e ∪ file))
    by (unfold App.PORT; by rewrite Henv).
  split; [|split; [|split; [|split; [|split; [|split]]]]].
  - intros s Hs Hne. rewrite HP. unfold App.port_of. rewrite Hs.
    by rewrite decide_False.
  - intros H. rewrite HP. unfold App.port_of.
    destruct H as [->| ->]; done.
  - intros s n Hs Hn. rewrite HP. unfold App.port_of. rewrite Hs.
    assert (Hne : s ≠ "") by (by intros ->).
    rewrite decide_False by done. by apply listen_endpoint_numeral.
  - done.
  - done.
  - rewrite HP. intros Hep.
    destruct (main_state e file Hep) as (_ & _ & Hsrv & Hex & _ & _).
    fold p in Hsrv, Hex. rewrite HP in Hsrv.
    assert (Hq : q = set_console
                       (console p ++ [mkLog Stdout ("Server is running on port " +:+
                                        port_to_string (App.port_of (e ∪ file)))])
                       (set_server (Listening (App.port_of (e ∪ file))) p)).
    { unfold q, App.deliver. by rewrite Hex, Hsrv. }
    split; [done|]. split; [done|]. rewrite Hq. simpl.
    split; [done|]. split; [done|]. split; [done|].
    unfold App.deliver. simpl. by rewrite Hex, Hacc.
  - rewrite HP. intros Hep.
    destruct (main_refused e file Hep) as (Hex & Hsrv). fold p in Hex, Hsrv.
    split; [done|]. intros evs. by rewrite (run_exited evs p 1%Z).
Qed.

(** The amended statement at two start-ups: PORT=3000 in the
    environment with the database URI in the .env file, and PORT=3000.5,
    which is refused. *)
Lemma app_listens_without_waiting_witness :
  let e : gmap string string := {[ "PORT" := "3000" ]} in
  let file : gmap string string := {[ "CLOUD_URI" := "mongodb://db" ]} in
  let bad : gmap string string := {[ "PORT" := "3000.5" ]} in
  (server (App.main (boot e file)) = Binding (PortStr "3000") ∧
   listen_endpoint (PortStr "3000") = Some (Tcp 3000) ∧
   accepted (App.deliver App.HttpRequest
               (App.deliver App.ServerBound (App.main (boot e file)))) = 1) ∧
  exit_code (App.main (boot bad file)) = Some 1%Z.
Proof.
  intros e file bad. split.
  - pose proof (app_listens_without_waiting e file)
      as (H1 & _ & H3 & _ & _ & H6 & _).
    assert (HP : App.PORT (App.main (boot e file)) = PortStr "3000")
      by (apply H1; [by vm_compute|discriminate]).
    assert (Hep : listen_endpoint (App.PORT (App.main (boot e file)))
                  = Some (Tcp 3000)).
    { apply (H3 "3000" 3000%N); by vm_compute. }
    rewrite HP in Hep, H6.
    destruct H6 as (_ & Hsrv & _ & _ & _ & Hacc); [by rewrite Hep|].
    done.
  - pose proof (app_listens_without_waiting bad file)
      as (H1 & _ & _ & _ & _ & _ & H7).
    assert (HP : App.PORT (App.main (boot bad file)) = PortStr "3000.5")
      by (apply H1; [by vm_compute|discriminate]).
    rewrite HP in H7. by destruct H7 as [Hex _]; [by vm_compute|].
Defined.

End ProcessFacts.

(** ** README-auth.md *)

Section AuthFacts.
Import Auth.

Variable bcrypt_hash : string → nat → string.
Variable jwt_sign : Payload → option string → string → option string.
Variable jwt_verify : string → option string → option Payload.
Variable new_ObjectId : nat → string.

Lemma includes_true (roles : list string) (x : option string) :
  includes roles x = true ↔ ∃ r, x = Some r ∧ r ∈ roles.
Proof.
  destruct x as [r|]; simpl.
  - rewrite bool_decide_eq_true. split; [eauto|]. by intros (? & [= <-] & ?).
  - split; [done|]. by intros (? & ? & _).
Qed.

Lemma includes_false (roles : list string) (x : option string) :
  includes roles x = false ↔ ∀ r, x = Some r → r ∉ roles.
Proof.
  destruct x as [r|]; simpl.
  - rewrite bool_decide_eq_false. split; [by intros ? ? [= <-]|]. eauto.
  - split; [|done]. by intros _ r.
Qed.

(** [authorize] never throws once [req.user] is set. *)
Lemma authorize_total (roles : list string) (req : Request) (u : Payload) :
  user req = Some u → ∃ d, decision (authorize roles req) = Some d.
Proof.
  intros Hu. unfold authorize. rewrite Hu.
  destruct (includes roles (role u)); simpl; eauto.
Qed.

(** C1: for a principal whose role is not among the roles listed for the
    operation, [authorize] answers 403 Forbidden without calling
    [next()], which is the gate's Deny(NoRuleDefined); and for every
    principal the call ends in a decision, never in an exception. *)
Theorem authorize_default_deny (roles : list string) (req : Request)
    (u : Payload) :
  user req = Some u →
  (∃ d, decision (authorize roles req) = Some d) ∧
  ((∀ r, role u = Some r → r ∉ roles) →
   authorize roles req = Respond (mkResponse 403 (JMessage "Forbidden")) ∧
   decision (authorize roles req) = Some (Deny NoRuleDefined)).
Proof.
  intros Hu. split; [by eapply authorize_total|].
  intros Hno. apply includes_false in Hno.
  unfold authorize. by rewrite Hu, Hno.
Qed.

(** [authenticate] either answers itself or passes on a request whose
    [user] is set. *)
Lemma authenticate_sets_user (s : Server) (req req' : Request) :
  authenticate jwt_verify s req = Next req' → ∃ u, user req' = Some u.
Proof.
  unfold authenticate.
  destruct (headers req !! "Authorization") as [h|]; simpl; [|done].
  case_bool_decide; [done|].
  destruct (jwt_verify _ _) as [decoded|]; [|done].
  intros [= <-]. eauto.
Qed.

Lemma authenticate_no_raise (s : Server) (req : Request) (msg : string) :
  authenticate jwt_verify s req ≠ Raise msg.
Proof.
  unfold authenticate.
  destruct (headers req !! "Authorization") as [h|]; simpl; [|done].
  case_bool_decide; [done|].
  by destruct (jwt_verify _ _).
Qed.

(** On the protected routes [authorize] runs behind [authenticate]: the
    pair never raises, and it reaches the controller only for a token
    whose role is listed. *)
Lemma protected_route_guard (s : Server) (roles : list string)
    (req : Request) :
  match run_middlewares [authenticate jwt_verify s; authorize roles] req with
  | Next req' => ∃ u r, user req' = Some u ∧ role u = Some r ∧ r ∈ roles
  | Respond res => status res ∈ [401; 400; 403]%Z
  | Raise _ => False
  end.
Proof.
  simpl.
  destruct (authenticate jwt_verify s req) as [req1|res|msg] eqn:Ha.
  - destruct (authenticate_sets_user _ _ _ Ha) as [u Hu].
    unfold authorize. rewrite Hu.
    destruct (includes roles (role u)) eqn:Hi.
    + apply includes_true in Hi as (r & Hr & Hin). eauto.
    + simpl. set_solver.
  - revert Ha. unfold authenticate.
    destruct (headers req !! "Authorization") as [h|]; simpl.
    + case_bool_decide; [intros [= <-]; simpl; set_solver|].
      destruct (jwt_verify _ _); [done|]. intros [= <-]. simpl. set_solver.
    + intros [= <-]. simpl. set_solver.
  - by apply authenticate_no_raise in Ha.
Qed.

(** Every route of the router that has [authorize] lists the admin role
    only, and has [authenticate] in front of it. *)
Lemma pokemonRoutes_guards (s : Server) (r : Route) :
  r ∈ pokemonRoutes jwt_verify s →
  middlewares r = [] ∧ method r = GET ∨
  middlewares r = [authenticate jwt_verify s; authorize ["admin"]] ∧ method r ≠ GET.
Proof.
  unfold pokemonRoutes. rewrite !elem_of_cons, elem_of_nil.
  intros [->|[->|[->|[->|[->|[]]]]]]; simpl; auto.
Qed.

(** The decision of [authorize] is a function of the role alone. *)
Lemma authorize_role_only (roles : list string) (req : Request) (u : Payload) :
  user req = Some u →
  authorize roles req =
    if includes roles (role u) then Next req
    else Respond (mkResponse 403 (JMessage "Forbidden")).
Proof. intros Hu. unfold authorize. by rewrite Hu. Qed.

End AuthFacts.

Section RegisterFacts.
Import Auth.

Variable bcrypt_hash : string → nat → string.
Variable jwt_sign : Payload → option string → string → option string.
Variable new_ObjectId : nat → string.

Lemma pick_lookup (keys : list string) (obj : gmap string string) (k : string) :
  k ∈ keys → pick keys obj !! k = obj !! k.
Proof.
  intros Hk. unfold pick. destruct (obj !! k) as [v|] eqn:E.
  - by apply map_lookup_filter_Some.
  - apply map_lookup_filter_None. by left.
Qed.

(** Of the three paths only [role] has a default. *)
Lemma apply_defaults_userSchema (obj : gmap string string) :
  apply_defaults userSchema obj =
    match obj !! "role" with
    | Some _ => obj
    | None => <["role" := "user"]> obj
    end.
Proof.
  unfold apply_defaults, userSchema. simpl.
  destruct (obj !! "role") as [r|]; simpl.
  - by destruct (obj !! "password"), (obj !! "username").
  - by destruct (<["role" := "user"]> obj !! "password"),
               (<["role" := "user"]> obj !! "username").
Qed.

Lemma validate_userSchema_ok (d : gmap string string) (u pw r : string) :
  d !! "username" = Some u → u ≠ "" →
  d !! "password" = Some pw → pw ≠ "" →
  d !! "role" = Some r → r ∈ ["admin"; "user"] →
  validate userSchema d = None.
Proof.
  intros Hu Hune Hp Hpne Hr Hrin.
  unfold validate, userSchema, validate_path. simpl.
  rewrite Hu, Hp, Hr.
  rewrite (bool_decide_eq_false_2 (u = "")), (bool_decide_eq_false_2 (pw = "")) by done.
  by rewrite bool_decide_eq_true_2.
Qed.

Lemma check_unique_userSchema_ok (d : gmap string string) (u : string)
    (coll : list Document) :
  d !! "username" = Some u →
  (∀ x, x ∈ coll → fields x !! "username" ≠ Some u) →
  check_unique userSchema d coll = None.
Proof.
  intros Hu Hfresh. unfold check_unique, userSchema. simpl. rewrite Hu.
  rewrite bool_decide_eq_false_2.
  - by destruct (d !! "password"), (d !! "role").
  - rewrite list_elem_of_fmap. intros (x & Hx & Hin). by eapply Hfresh.
Qed.

(** C10: a registration request with a username that is free and a
    password is answered 201 with a token signed over the role given in
    the request body, admin included, and over user when the body gives
    none; the stored document carries the same role. The request needs
    no credential: its headers and its [user] property are arbitrary. *)
Theorem register_stores_supplied_role (req : Request) (s : Server)
    (u pw token : string) :
  body req !! "username" = Some u → u ≠ "" →
  body req !! "password" = Some pw → pw ≠ "" →
  (∀ x, x ∈ users s → fields x !! "username" ≠ Some u) →
  body req !! "role" ∈ [None; Some "admin"; Some "user"] →
  jwt_sign (mkPayload (new_ObjectId (next_id s))
                      (Some (option.default "user" (body req !! "role"))))
           (env s !! "JWT_SECRET") "1h" = Some token →
  ∃ saved,
    register bcrypt_hash jwt_sign new_ObjectId req s =
      (mkResponse 201 (JToken token),
       mkServer (users s ++ [saved]) (S (next_id s)) (env s)) ∧
    _id saved = new_ObjectId (next_id s) ∧
    fields saved !! "role" = Some (option.default "user" (body req !! "role")) ∧
    fields saved !! "username" = Some u ∧
    fields saved !! "password" = Some (bcrypt_hash pw 10).
Proof.
  intros Hu Hune Hp Hpne Hfresh Hrole Hsign.
  set (obj := pick ["username"; "password"; "role"] (body req)).
  set (d := apply_defaults userSchema obj).
  assert (Hobj : ∀ k, k ∈ ["username"; "password"; "role"] →
                      obj !! k = body req !! k)
    by (intros k Hk; by apply pick_lookup).
  assert (Hdr : d !! "role" = Some (option.default "user" (body req !! "role")) ∧
                d !! "username" = Some u ∧ d !! "password" = Some pw).
  { assert (Hor : obj !! "role" = body req !! "role")
      by (apply Hobj; rewrite !elem_of_cons; auto).
    assert (Hou : obj !! "username" = Some u)
      by (rewrite Hobj; [done|rewrite !elem_of_cons; auto]).
    assert (Hop : obj !! "password" = Some pw)
      by (rewrite Hobj; [done|rewrite !elem_of_cons; auto]).
    unfold d. rewrite apply_defaults_userSchema, <- Hor.
    destruct (obj !! "role") as [r|] eqn:Er; simpl; [done|].
    by rewrite lookup_insert_eq, !lookup_insert_ne. }
  destruct Hdr as (Hdrole & Hduser & Hdpw).
  assert (Hin : option.default "user" (body req !! "role") ∈ ["admin"; "user"]).
  { revert Hrole. rewrite !elem_of_cons, elem_of_nil.
    intros [->|[->|[->|[]]]]; simpl; auto. }
  set (d' := <["password" := bcrypt_hash pw 10]> d).
  exists (mkDocument (new_ObjectId (next_id s)) d').
  assert (Hsave : save bcrypt_hash (new_User new_ObjectId obj s) s =
                  inr (mkDocument (new_ObjectId (next_id s)) d',
                       mkServer (users s ++ [mkDocument (new_ObjectId (next_id s)) d'])
                                (S (next_id s)) (env s))).
  { unfold save.
    change (fields (new_User new_ObjectId obj s)) with d.
    change (_id (new_User new_ObjectId obj s)) with (new_ObjectId (next_id s)).
    rewrite (validate_userSchema_ok d u pw _ Hduser Hune Hdpw Hpne Hdrole Hin).
    unfold pre_save. rewrite Hdpw. fold d'.
    rewrite (check_unique_userSchema_ok d' u); [done| |done].
    unfold d'. by rewrite lookup_insert_ne. }
  unfold register. fold obj. rewrite Hsave.
  unfold generateToken. simpl.
  assert (Hd'role : d' !! "role" = Some (option.default "user" (body req !! "role")))
    by (unfold d'; by rewrite lookup_insert_ne).
  rewrite Hd'role, Hsign.
  repeat split.
  - unfold d'. by rewrite lookup_insert_ne.
  - unfold d'. by rewrite lookup_insert_eq.
Qed.

End RegisterFacts.

(** ** The statements above on concrete requests *)

Section AuthExamples.
Import Auth.

Lemma authorize_default_deny_witness :
  authorize ["admin"] user_request =
    Respond (mkResponse 403 (JMessage "Forbidden")) ∧
  decision (authorize ["admin"] user_request) = Some (Deny NoRuleDefined).
Proof.
  destruct (authorize_default_deny ["admin"] user_request
              (mkPayload "u1" (Some "user")) eq_refl) as [_ H].
  apply H. intros r [= <-]. rewrite list_elem_of_singleton. discriminate.
Defined.

Lemma register_stores_supplied_role_witness :
  ∃ saved,
    register demo_hash demo_sign demo_ObjectId admin_registration demo_server =
      (mkResponse 201 (JToken "id0.admin.s3cret"),
       mkServer [saved] 1 {[ "JWT_SECRET" := "s3cret" ]}) ∧
    fields saved !! "role" = Some "admin".
Proof.
  destruct (register_stores_supplied_role demo_hash demo_sign demo_ObjectId
              admin_registration demo_server "mallory" "pw" "id0.admin.s3cret")
    as (saved & Hreg & _ & Hrole & _).
  - by vm_compute.
  - discriminate.
  - by vm_compute.
  - discriminate.
  - intros x Hx. by apply elem_of_nil in Hx.
  - vm_compute. constructor. constructor.
  - by vm_compute.
  - exists saved. split; [exact Hreg|exact Hrole].
Defined.

End AuthExamples.

(** ** The access control gate *)

Section GateFacts.
Import Gate.

Lemma rule_for_table_of (roles : list string) (op : OperationKind) (r : string) :
  rule_for (table_of roles op) r op =
    if bool_decide (r ∈ roles) then Some (mkRule true false) else None.
Proof.
  induction roles as [|r' roles IH]; [done|].
  unfold table_of. rewrite fmap_cons. fold (table_of roles op).
  cbn [rule_for]. destruct (decide (r' = r ∧ op = op)) as [Hd|Hd].
  - destruct Hd as [-> _]. by rewrite bool_decide_eq_true_2 by left.
  - rewrite IH. assert (Hne : r' ≠ r) by naive_solver.
    destruct (decide (r ∈ roles)) as [Hin|Hin].
    + by rewrite !bool_decide_eq_true_2 by (done || by right).
    + rewrite !bool_decide_eq_false_2; [done| |done].
      rewrite elem_of_cons. naive_solver.
Qed.

(** On the table of a route the gate decides as [authorize(roles)] of
    README-auth.md does: the principal passes when its role is listed
    and is refused for want of a rule otherwise, whatever the hint. *)
Lemma gate_of_roles (roles : list string) (op : OperationKind)
    (req : Auth.Request) (u : Auth.Payload) (r : string)
    (hint : option ResourceHint) :
  Auth.user req = Some u → Auth.role u = Some r →
  match authorize (table_of roles op) (mkPrincipal (Auth.id u) r) op hint with
  | Allow => Auth.authorize roles req = Auth.Next req
  | Deny reason =>
      reason = NoRuleDefined ∧
      Auth.authorize roles req =
        Auth.Respond (Auth.mkResponse 403 (Auth.JMessage "Forbidden"))
  end.
Proof.
  intros Hu Hr. unfold authorize, Auth.authorize. simpl.
  rewrite rule_for_table_of, Hu, Hr. simpl.
  case_bool_decide; simpl; [|done].
  by destruct (hint ≫= owner).
Qed.



End GateFacts.

(** ** The reference resolver *)

Section ResolverFacts.
Import Resolver.

(** *** Fields *)

Lemma set_field_names (f : string) (v : Value) (fs : Fields) :
  (set_field f v fs).*1 = fs.*1.
Proof.
  induction fs as [|[g x] fs IH]; [done|]. cbn [set_field].
  case_decide; [done|]. rewrite !fmap_cons. by f_equal.
Qed.

Lemma set_field_other (f : string) (v : Value) (fs : Fields) (k : nat)
    (g : string) (x : Value) :
  g ≠ f → fs !! k = Some (g, x) → set_field f v fs !! k = Some (g, x).
Proof.
  intros Hne. revert k. induction fs as [|[h y] fs IH]; intros k; [done|].
  simpl. case_decide as Hh.
  - destruct k as [|k]; simpl; [|done]. intros [= -> ->]. done.
  - destruct k as [|k]; simpl; [done|]. apply IH.
Qed.

Lemma field_set_field (f : string) (v x : Value) (fs : Fields) :
  field f fs = Some x → field f (set_field f v fs) = Some v.
Proof.
  induction fs as [|[g y] fs IH]; [done|]. simpl.
  case_decide as Hg; simpl.
  - by rewrite decide_True.
  - by rewrite decide_False.
Qed.

Lemma field_set_field_ne (f g : string) (v : Value) (fs : Fields) :
  g ≠ f → field g (set_field f v fs) = field g fs.
Proof.
  intros Hne. induction fs as [|[h y] fs IH]; [done|]. simpl.
  case_decide as Hh; simpl.
  - subst h. by rewrite !decide_False by done.
  - by rewrite IH.
Qed.


(** *** Batched lookups *)

Lemma assoc_fmap {K V : Type} `{EqDecision K} (g : K → V) (ks : list K) (k : K) :
  k ∈ ks → assoc k ((λ k', (k', g k')) <$> ks) = Some (g k).
Proof.
  induction ks as [|k' ks IH]; [by rewrite elem_of_nil|].
  rewrite elem_of_cons. simpl. intros Hk.
  case_decide as Hd; [by subst|]. destruct Hk as [->|Hk]; [done|auto].
Qed.

(** [fetch] sends exactly one batch per collection it is given, with the
    distinct identifiers of that collection, and reads the storage only. *)
Lemma fetch_spec (cs : list string) (refs : list Reference) (w : World) :
  fetch cs refs w =
    ((λ c, (c, (λ i, (i, getById (storage w) c i)) <$> distinct_ids c refs)) <$> cs,
     mkWorld (storage w) (log w ++ ((λ c, (c, distinct_ids c refs)) <$> cs))).
Proof.
  revert w. induction cs as [|c cs IH]; intros w; simpl.
  - rewrite app_nil_r. by destruct w.
  - rewrite IH. simpl. by rewrite <- app_assoc.
Qed.

Lemma target_collections_spec (refs : list Reference) (r : Reference) :
  r ∈ refs → target r ∈ target_collections refs.
Proof.
  intros Hr. unfold target_collections.
  rewrite elem_of_remove_dups, list_elem_of_fmap. eauto.
Qed.

Lemma distinct_ids_spec (c : string) (refs : list Reference) (i : Z) :
  i ∈ distinct_ids c refs ↔ mkRef c i ∈ refs.
Proof.
  unfold distinct_ids.
  rewrite elem_of_remove_dups, list_elem_of_fmap. split.
  - intros ([c' i'] & -> & Hin). apply list_elem_of_filter in Hin as [Hc Hin].
    simpl in *. by subst.
  - intros Hin. exists (mkRef c i). split; [done|].
    by apply list_elem_of_filter.
Qed.

Lemma distinct_ids_NoDup (c : string) (refs : list Reference) :
  NoDup (distinct_ids c refs).
Proof. apply NoDup_remove_dups. Qed.

(** What the batches return for a Reference of the field is what the
    storage holds for it. *)
Lemma fetched_fetch (refs : list Reference) (w : World) (r : Reference) :
  r ∈ refs →
  fetched (fetch (target_collections refs) refs w).1 r =
    getById (storage w) (target r) (ident r).
Proof.
  intros Hr. rewrite fetch_spec. simpl. unfold fetched.
  rewrite (assoc_fmap
             (λ c, (λ i, (i, getById (storage w) c i)) <$> distinct_ids c refs))
    by by apply target_collections_spec.
  rewrite (assoc_fmap (λ i, getById (storage w) (target r) i)); [done|].
  apply distinct_ids_spec. by destruct r.
Qed.

(** *** Levels *)

Lemma element_elements (v : Value) (k : nat) : element v k = elements v !! k.
Proof. destruct v; try done; by destruct k. Qed.

Lemma refs_of_elements (v : Value) (r : Reference) :
  VRef r ∈ elements v → r ∈ refs_of v.
Proof.
  destruct v as [p|fs|r'|vs|c i fs|r'|r']; simpl;
    try (rewrite list_elem_of_singleton; intros [=]; subst; try done).
  - by apply list_elem_of_singleton.
  - intros Hin. apply list_elem_of_omap. by exists (VRef r).
Qed.

Lemma traverse_ext {A B S : Type} (f g : A → S → B * S) (l : list A) (s : S) :
  (∀ x s', x ∈ l → f x s' = g x s') → traverse f l s = traverse g l s.
Proof.
  revert s. induction l as [|x l IH]; intros s Hfg; [done|].
  simpl. rewrite (Hfg x s) by left. destruct (g x s) as [y s1].
  rewrite IH; [done|]. intros x' s' Hin. apply Hfg. by right.
Qed.

Lemma traverse_length {A B S : Type} (f : A → S → B * S) (l : list A) (s : S) :
  length (traverse f l s).1 = length l.
Proof.
  revert s. induction l as [|x l IH]; intros s; simpl; [done|].
  destruct (f x s) as [y s1]. specialize (IH s1).
  destruct (traverse f l s1) as [ys s2]. simpl in *. by rewrite IH.
Qed.

Lemma splice_elem_ext (found found' : Reference → option Fields)
    (rest : list string) (sel : option (list string))
    (chain : list (string * Z)) (x : Value) (kids : list Value) :
  (∀ r, x = VRef r → found r = found' r) →
  splice_elem found rest sel chain x kids =
  splice_elem found' rest sel chain x kids.
Proof.
  intros H. destruct x as [p|fs|r|vs|c i fs|r|r]; try done.
  simpl. by rewrite (H r).
Qed.

Lemma splice_item_ext (found found' : Reference → option Fields)
    (rest : list string) (sel : option (list string)) (it : Item)
    (kids : list Value) :
  (∀ r, r ∈ refs_of it.2 → found r = found' r) →
  splice_item found rest sel it kids = splice_item found' rest sel it kids.
Proof.
  intros H. destruct it as [chain v]. unfold splice_item. simpl in *.
  destruct v as [p|fs|r|vs|c i fs|r|r]; try done.
  - apply (splice_elem_ext found found' rest sel chain (VRef r) kids).
    intros r' [= <-]. apply H. by apply list_elem_of_singleton.
  - rewrite (traverse_ext _ (splice_elem found' rest sel chain)); [done|].
    intros x s' Hin. apply splice_elem_ext. intros r ->. apply H.
    by apply (refs_of_elements (VSeq vs)).
Qed.

Lemma entered_ext (found found' : Reference → option Fields)
    (chain : list (string * Z)) (x : Value) :
  (∀ r, x = VRef r → found r = found' r) →
  entered found chain x = entered found' chain x.
Proof.
  intros H. destruct x as [p|fs|r|vs|c i fs|r|r]; try done.
  simpl. by rewrite (H r).
Qed.

Lemma bind_ext_elem {A B : Type} (f g : A → list B) (l : list A) :
  (∀ x, x ∈ l → f x = g x) → l ≫= f = l ≫= g.
Proof.
  induction l as [|x l IH]; intros H; [done|].
  rewrite !bind_cons, (H x) by left. f_equal. apply IH.
  intros y Hy. apply H. by right.
Qed.

Lemma elem_of_level_refs (items : list Item) (it : Item) (r : Reference) :
  it ∈ items → r ∈ refs_of it.2 → r ∈ level_refs items.
Proof.
  intros Hit Hr. unfold level_refs. apply list_elem_of_bind. eauto.
Qed.

Lemma next_items_ext (found found' : Reference → option Fields) (g : string)
    (items : list Item) :
  (∀ r, r ∈ level_refs items → found r = found' r) →
  next_items found g items = next_items found' g items.
Proof.
  intros H. unfold next_items. apply bind_ext_elem. intros it Hit.
  apply bind_ext_elem. intros x Hx.
  rewrite (entered_ext found found'); [done|].
  intros r ->. apply H. apply (elem_of_level_refs items it); [done|].
  by apply refs_of_elements.
Qed.

Lemma expansion_eq (st : gmap string (gmap Z Fields)) (rest : list string)
    (sel : option (list string)) (chain : list (string * Z)) (v : Value) :
  expansion st rest sel chain v =
    match v with
    | VSeq vs =>
        VSeq (expansion_elem st (inside_target st rest sel chain) chain <$> vs)
    | _ => expansion_elem st (inside_target st rest sel chain) chain v
    end.
Proof. by destruct rest. Qed.

Lemma expand_level_eq (rest : list string) (sel : option (list string))
    (items : list Item) (w : World) :
  expand_level rest sel items w =
    let refs := level_refs items in
    let '(results, w1) := fetch (target_collections refs) refs w in
    match rest with
    | [] => ((traverse (splice_item (fetched results) [] sel) items []).1, w1)
    | g :: rest' =>
        let '(kids, w2) :=
          expand_level rest' sel (next_items (fetched results) g items) w1 in
        ((traverse (splice_item (fetched results) (g :: rest') sel) items kids).1,
         w2)
    end.
Proof. by destruct rest. Qed.

Section Splice.

Variable st : gmap string (gmap Z Fields).
Variable sel : option (list string).

(** At the end of a path nothing is taken from the level below. *)
Lemma splice_elem_last (chain : list (string * Z)) (x : Value)
    (kids : list Value) :
  splice_elem (lookup st) [] sel chain x kids =
    (expansion_elem st (inside_target st [] sel chain) chain x, kids).
Proof.
  destruct x as [p|fs|r|vs|c i fs|r|r]; try done. simpl.
  destruct (lookup st r) as [tfs|]; [|done]. by case_bool_decide.
Qed.

Lemma splice_item_last (it : Item) (kids : list Value) :
  splice_item (lookup st) [] sel it kids =
    (expansion st [] sel it.1 it.2, kids).
Proof.
  destruct it as [chain v]. rewrite expansion_eq. unfold splice_item.
  cbn [fst snd].
  destruct v as [p|fs|r|vs|c i fs|r|r]; try apply splice_elem_last.
  assert (H : traverse (splice_elem (lookup st) [] sel chain) vs kids =
              (expansion_elem st (inside_target st [] sel chain) chain <$> vs,
               kids)).
  { induction vs as [|x vs IH]; [done|]. cbn [traverse].
    rewrite splice_elem_last. by rewrite IH. }
  by rewrite H.
Qed.

Lemma splice_items_last (items : list Item) (kids : list Value) :
  traverse (splice_item (lookup st) [] sel) items kids =
    ((λ it, expansion st [] sel it.1 it.2) <$> items, kids).
Proof.
  induction items as [|it items IH]; [done|]. cbn [traverse].
  rewrite splice_item_last. by rewrite IH.
Qed.

Variables (g : string) (rest : list string).

Local Abbreviation below :=
  (λ it : Item, expansion st rest sel it.1 it.2).

Local Abbreviation child := (λ (chain : list (string * Z)) (x : Value),
  match entered (lookup st) chain x with
  | Some (r, tfs) =>
      match field g tfs with
      | Some v2 => [((target r, ident r) :: chain, v2)]
      | None => []
      end
  | None => []
  end).

(** A target that is entered takes the first value of the level below,
    which is the expansion of its own field. *)
Lemma splice_elem_nested (chain : list (string * Z)) (x : Value)
    (more : list Value) :
  splice_elem (lookup st) (g :: rest) sel chain x
              ((below <$> child chain x) ++ more) =
    (expansion_elem st (inside_target st (g :: rest) sel chain) chain x, more).
Proof.
  destruct x as [p|fs|r|vs|c i fs|r|r]; try done. simpl.
  destruct (lookup st r) as [tfs|]; [|done].
  case_bool_decide; [done|].
  by destruct (field g tfs).
Qed.

Lemma splice_elems_nested (chain : list (string * Z)) (vs : list Value)
    (more : list Value) :
  traverse (splice_elem (lookup st) (g :: rest) sel chain) vs
           ((below <$> (vs ≫= child chain)) ++ more) =
    (expansion_elem st (inside_target st (g :: rest) sel chain) chain <$> vs,
     more).
Proof.
  induction vs as [|x vs IH]; [done|].
  rewrite bind_cons, fmap_app, <- app_assoc.
  cbn [traverse]. rewrite splice_elem_nested. by rewrite IH.
Qed.

Lemma splice_item_nested (it : Item) (more : list Value) :
  splice_item (lookup st) (g :: rest) sel it
              ((below <$> (elements it.2 ≫= child it.1)) ++ more) =
    (expansion st (g :: rest) sel it.1 it.2, more).
Proof.
  destruct it as [chain v]. rewrite expansion_eq. unfold splice_item.
  cbn [fst snd].
  destruct v as [p|fs|r|vs|c i fs|r|r];
    try (cbn [elements]; rewrite bind_cons; cbn [mbind list_bind];
         rewrite app_nil_r; apply splice_elem_nested).
  cbn [elements]. by rewrite splice_elems_nested.
Qed.

Lemma splice_items_nested (items : list Item) (more : list Value) :
  traverse (splice_item (lookup st) (g :: rest) sel) items
           ((below <$> next_items (lookup st) g items) ++ more) =
    ((λ it, expansion st (g :: rest) sel it.1 it.2) <$> items, more).
Proof.
  revert more. induction items as [|it items IH]; intros more; [done|].
  unfold next_items. rewrite bind_cons, fmap_app, <- app_assoc.
  cbn [traverse]. rewrite splice_item_nested.
  fold (next_items (lookup st) g items). by rewrite IH.
Qed.

End Splice.

Lemma fetched_lookup (refs : list Reference) (w : World) (r : Reference) :
  r ∈ refs →
  fetched (fetch (target_collections refs) refs w).1 r = lookup (storage w) r.
Proof. apply fetched_fetch. Qed.

Lemma fetch_world (refs : list Reference) (w : World) :
  (fetch (target_collections refs) refs w).2 =
    mkWorld (storage w) (log w ++ batches_of refs).
Proof. by rewrite fetch_spec. Qed.

(** The level-wise resolver computes the expansion read off the storage,
    and its lookups are the batches of the levels of the path. *)
Lemma expand_level_spec (rest : list string) (sel : option (list string))
    (items : list Item) (w : World) :
  expand_level rest sel items w =
    ((λ it, expansion (storage w) rest sel it.1 it.2) <$> items,
     mkWorld (storage w)
             (log w ++ (levels (storage w) rest items ≫= batches_of))).
Proof.
  revert items w. induction rest as [|g rest IH]; intros items w;
    rewrite expand_level_eq; cbn zeta;
    pose proof (λ r, fetched_lookup (level_refs items) w r) as Hf;
    pose proof (fetch_world (level_refs items) w) as Hw;
    destruct (fetch _ _ w) as [results w1]; simpl in Hf, Hw; subst w1.
  - rewrite (traverse_ext _ (splice_item (lookup (storage w)) [] sel)).
    + rewrite splice_items_last. simpl. by rewrite app_nil_r.
    + intros it s' Hit. apply splice_item_ext. intros r Hr.
      apply Hf. by eapply elem_of_level_refs.
  - rewrite (next_items_ext _ (lookup (storage w))) by done.
    rewrite IH. cbn [storage log].
    rewrite (traverse_ext _ (splice_item (lookup (storage w)) (g :: rest) sel)).
    + pose proof (splice_items_nested (storage w) sel g rest items []) as Hs.
      rewrite app_nil_r in Hs. rewrite Hs. cbn [fst levels].
      by rewrite bind_cons, app_assoc.
    + intros it s' Hit. apply splice_item_ext. intros r Hr.
      apply Hf. by eapply elem_of_level_refs.
Qed.

Lemma expand_value_spec (rest : list string) (sel : option (list string))
    (chain : list (string * Z)) (v : Value) (w : World) :
  expand_value rest sel chain v w =
    (expansion (storage w) rest sel chain v,
     mkWorld (storage w)
             (log w ++ (levels (storage w) rest [(chain, v)] ≫= batches_of))).
Proof. unfold expand_value. by rewrite expand_level_spec. Qed.
(** *** Path validation *)

Lemma check_path_spec (schema : gmap string (gmap string FieldType))
    (c : string) (segs : list string) :
  check_path schema c segs = true ↔ ("" ∉ segs) ∧ known schema c segs.
Proof.
  split.
  - revert c. induction segs as [|f rest IH]; intros c; simpl.
    + intros _. split; [apply not_elem_of_nil|constructor].
    + destruct (schema !! c) as [decl|] eqn:Ec; simpl; [|done].
      destruct (decl !! f) as [[| |c'|c']|] eqn:Ef; try done.
      all: rewrite andb_true_iff, negb_true_iff, bool_decide_eq_false.
      all: intros [Hne Hrest]; destruct (IH c' Hrest) as [Hno Hk].
      all: split; [rewrite elem_of_cons; naive_solver|].
      * by eapply known_ref.
      * by eapply known_seq.
  - intros [Hno Hk]. induction Hk as [c|c f c' rest decl Hc Hf Hk IH
                                        |c f c' rest decl Hc Hf Hk IH]; [done|..].
    all: apply not_elem_of_cons in Hno as [Hne Hno].
    all: simpl; rewrite Hc; simpl; rewrite Hf.
    all: rewrite andb_true_iff, negb_true_iff, bool_decide_eq_false; auto.
Qed.


(** *** Positions of an expanded value *)

Lemma expansion_elements (st : gmap string (gmap Z Fields))
    (rest : list string) (sel : option (list string))
    (chain : list (string * Z)) (v : Value) :
  elements (expansion st rest sel chain v) =
    expansion_elem st (inside_target st rest sel chain) chain <$> elements v.
Proof.
  rewrite expansion_eq.
  destruct v as [p|fs|r|vs|c i fs|r|r]; try done.
  simpl. destruct (lookup st r) as [tfs|]; [|done]. by case_bool_decide.
Qed.

Lemma expansion_element (st : gmap string (gmap Z Fields)) (rest : list string)
    (sel : option (list string)) (chain : list (string * Z)) (v : Value)
    (k : nat) (x : Value) :
  element v k = Some x →
  element (expansion st rest sel chain v) k =
    Some (expansion_elem st (inside_target st rest sel chain) chain x).
Proof.
  rewrite !element_elements, expansion_elements, list_lookup_fmap.
  by intros ->.
Qed.

Lemma expansion_seq (st : gmap string (gmap Z Fields)) (rest : list string)
    (sel : option (list string)) (chain : list (string * Z))
    (vs : list Value) :
  ∃ vs', expansion st rest sel chain (VSeq vs) = VSeq vs' ∧
         length vs' = length vs.
Proof. rewrite expansion_eq. eexists. split; [done|]. by rewrite length_fmap. Qed.

(** *** The paths of a call *)

Lemma resolve_path_spec (d : Document) (p : PathSpec) (out : Fields)
    (w : World) :
  resolve_path d p out w =
    (merge_path (storage w) d out p,
     mkWorld (storage w)
             (log w ++ (requested (storage w) d [p] ≫= batches_of))).
Proof.
  unfold resolve_path, merge_path, requested. rewrite bind_cons.
  cbn [mbind list_bind]. rewrite app_nil_r.
  destruct (segments (path p)) as [|f rest].
  { simpl. rewrite app_nil_r. by destruct w. }
  destruct (field f (content d)) as [v|].
  - by rewrite expand_value_spec.
  - simpl. rewrite app_nil_r. by destruct w.
Qed.

Lemma requested_cons (st : gmap string (gmap Z Fields)) (d : Document)
    (p : PathSpec) (ps : list PathSpec) :
  requested st d (p :: ps) = requested st d [p] ++ requested st d ps.
Proof. unfold requested. rewrite !bind_cons. simpl. by rewrite app_nil_r. Qed.

(** A call computes, path by path, the expansions read off the storage;
    its lookups are the batches of the levels of its paths. *)
Lemma resolve_paths_spec (d : Document) (ps : list PathSpec) (out : Fields)
    (w : World) :
  resolve_paths d ps out w =
    (foldl (merge_path (storage w) d) out ps,
     mkWorld (storage w)
             (log w ++ (requested (storage w) d ps ≫= batches_of))).
Proof.
  revert out w. induction ps as [|p ps IH]; intros out w.
  - simpl. rewrite app_nil_r. by destruct w.
  - cbn [resolve_paths foldl]. rewrite resolve_path_spec, IH. cbn [storage log].
    by rewrite (requested_cons _ _ p ps), bind_app, app_assoc.
Qed.

(** One path rewrites the field it names and no other position. *)
Lemma merge_path_frame (st : gmap string (gmap Z Fields)) (d : Document)
    (p : PathSpec) (out : Fields) :
  (merge_path st d out p).*1 = out.*1 ∧
  ∀ k g x, out !! k = Some (g, x) → head (segments (path p)) ≠ Some g →
           merge_path st d out p !! k = Some (g, x).
Proof.
  unfold merge_path.
  destruct (segments (path p)) as [|f rest]; [done|].
  destruct (field f (content d)) as [v|]; [|done].
  split; [apply set_field_names|].
  intros k g x Hk Hne. apply set_field_other; [|done]. by intros ->.
Qed.

Lemma merge_paths_frame (st : gmap string (gmap Z Fields)) (d : Document)
    (ps : list PathSpec) (out : Fields) :
  (foldl (merge_path st d) out ps).*1 = out.*1 ∧
  ∀ k g x, out !! k = Some (g, x) → g ∉ heads ps →
           foldl (merge_path st d) out ps !! k = Some (g, x).
Proof.
  revert out. induction ps as [|p ps IH]; intros out; simpl; [done|].
  destruct (merge_path_frame st d p out) as [Hn Hk].
  destruct (IH (merge_path st d out p)) as [Hn' Hk'].
  split; [by rewrite Hn'|].
  intros k g x Hout Hg. apply Hk'.
  - apply Hk; [done|]. intros Hh. apply Hg. unfold heads. simpl.
    rewrite Hh. by left.
  - intros Hin. apply Hg. unfold heads in *. simpl.
    destruct (head (segments (path p))); [by right|done].
Qed.

Lemma merge_path_keeps (st : gmap string (gmap Z Fields)) (d : Document)
    (p : PathSpec) (out : Fields) (f : string) :
  head (segments (path p)) ≠ Some f →
  field f (merge_path st d out p) = field f out.
Proof.
  intros Hh. unfold merge_path.
  destruct (segments (path p)) as [|f' rest]; [done|].
  destruct (field f' (content d)) as [v0|]; [|done].
  apply field_set_field_ne. intros ->. by apply Hh.
Qed.

Lemma merge_path_sets (st : gmap string (gmap Z Fields)) (d : Document)
    (p : PathSpec) (out : Fields) (f : string) (rest : list string)
    (v : Value) :
  segments (path p) = f :: rest → field f (content d) = Some v →
  is_Some (field f out) →
  field f (merge_path st d out p) =
    Some (expansion st rest (select p) [(collection d, key d)] v).
Proof.
  intros Hs Hf [old Hold]. unfold merge_path. rewrite Hs, Hf.
  by eapply field_set_field.
Qed.




(** What the expansion of a field along every path that names it has,
    the output has as soon as one of the paths names the field. *)
Lemma merge_paths_field (st : gmap string (gmap Z Fields)) (d : Document)
    (f : string) (v : Value) (P : Value → Prop) :
  field f (content d) = Some v →
  ∀ ps out,
    (∀ p rest, p ∈ ps → segments (path p) = f :: rest →
               P (expansion st rest (select p) [(collection d, key d)] v)) →
    (∃ v', field f out = Some v' ∧ P v') ∨
    (is_Some (field f out) ∧ f ∈ heads ps) →
    ∃ v', field f (foldl (merge_path st d) out ps) = Some v' ∧ P v'.
Proof.
  intros Hf. induction ps as [|p ps IH]; intros out HP Hout.
  { destruct Hout as [H|[_ H]]; [done|by apply elem_of_nil in H]. }
  cbn [foldl]. apply IH; [intros q rest Hq; apply HP; by right|].
  destruct (decide (head (segments (path p)) = Some f)) as [Hh|Hh].
  - left. destruct (segments (path p)) as [|f' rest] eqn:Es; [done|].
    injection Hh as ->.
    assert (Hsome : is_Some (field f out)).
    { destruct Hout as [(v' & Hv' & _)|[H _]]; eauto. }
    rewrite (merge_path_sets st d p out f rest v Es Hf Hsome).
    eexists. split; [done|]. apply HP; [by left|done].
  - rewrite merge_path_keeps by done.
    destruct Hout as [H|[Hsome Hin]]; [by left|right].
    split; [done|]. unfold heads in Hin. simpl in Hin.
    destruct (head (segments (path p))) as [h|]; [|done].
    apply elem_of_cons in Hin as [->|Hin]; done.
Qed.

(** *** The claims about [resolve] *)

Lemma resolve_valid (schema : gmap string (gmap string FieldType))
    (d : Document) (paths : list PathSpec) (w : World) :
  Forall (λ p, ¬ malformed (path p) ∧
               known schema (collection d) (segments (path p))) paths →
  resolve schema d paths w =
    (inr (mkDocument (collection d) (key d)
            (foldl (merge_path (storage w) d) (content d) paths)),
     mkWorld (storage w)
             (log w ++ (requested (storage w) d paths ≫= batches_of))).
Proof.
  intros Hv. unfold resolve.
  assert (Hall : forallb (λ p, check_path schema (collection d)
                                          (segments (path p))) paths = true).
  { apply forallb_forall. intros p Hp. apply list_elem_of_In in Hp.
    rewrite Forall_forall in Hv. apply check_path_spec, (Hv p Hp). }
  rewrite Hall. by rewrite resolve_paths_spec.
Qed.

Lemma resolve_inr (schema : gmap string (gmap string FieldType))
    (d d' : Document) (paths : list PathSpec) (w w' : World) :
  resolve schema d paths w = (inr d', w') →
  d' = mkDocument (collection d) (key d)
         (foldl (merge_path (storage w) d) (content d) paths) ∧
  w' = mkWorld (storage w)
               (log w ++ (requested (storage w) d paths ≫= batches_of)).
Proof.
  unfold resolve. destruct (forallb _ paths); [|done].
  rewrite resolve_paths_spec. by intros [= <- <-].
Qed.
(** C7: a call that includes a malformed path (one with an empty
    segment) or an unknown path (one that does not name, segment by
    segment, a declared Reference field) fails as a whole with
    ResolutionError: no document is returned, whatever the other paths
    are, and the world is the one the call started in: nothing was
    looked up and nothing was changed. *)
Theorem resolve_unknown_path_fails
    (schema : gmap string (gmap string FieldType)) (d : Document)
    (paths : list PathSpec) (w : World) (p : PathSpec) :
  p ∈ paths →
  malformed (path p) ∨ ¬ known schema (collection d) (segments (path p)) →
  resolve schema d paths w = (inl ResolutionError, w) ∧
  ∀ d' w', resolve schema d paths w ≠ (inr d', w').
Proof.
  intros Hp Hbad.
  assert (Hres : resolve schema d paths w = (inl ResolutionError, w)).
  { unfold resolve.
    destruct (forallb _ paths) eqn:Hall; [|done]. exfalso.
    rewrite forallb_forall in Hall.
    specialize (Hall p (proj1 (list_elem_of_In _ _) Hp)).
    apply check_path_spec in Hall as [Hno Hk].
    destruct Hbad as [Hm|Hu]; [by apply Hno|by apply Hu]. }
  split; [done|]. intros d' w'. by rewrite Hres.
Qed.

(** C3: when every path resolves, the output has the identity and the
    field names of the Document, every position whose field is not named
    by a path holds the value it held (the same constructor tree, hence
    the same bytes), and the storage after the call is the storage
    before it, so that every stored document reads as before. *)
Theorem resolve_frame (schema : gmap string (gmap string FieldType))
    (d d' : Document) (paths : list PathSpec) (w w' : World) :
  resolve schema d paths w = (inr d', w') →
  collection d' = collection d ∧ key d' = key d ∧
  (content d').*1 = (content d).*1 ∧
  (∀ k g x, content d !! k = Some (g, x) → g ∉ heads paths →
            content d' !! k = Some (g, x)) ∧
  storage w' = storage w ∧
  ∀ c i, getById (storage w') c i = getById (storage w) c i.
Proof.
  intros Hres. apply resolve_inr in Hres as [-> ->]. simpl.
  destruct (merge_paths_frame (storage w) d paths (content d)) as [Hn Hk].
  repeat split; done.
Qed.

(** C2: when a path names a field whose Reference at some position has
    a target identifier that its collection does not hold, the call
    succeeds and the output has the UnresolvedReference marker at that
    position; a sequence keeps its length, so nothing is omitted. In the
    end-to-end scenario, resolving [posts] on user 1 gives post 10
    followed by the marker for post 11, with one batched lookup. *)
Theorem resolve_missing_target :
  (∀ (schema : gmap string (gmap string FieldType)) (d : Document)
     (paths : list PathSpec) (w : World) (f : string) (v : Value) (k : nat)
     (r : Reference),
     Forall (λ p, ¬ malformed (path p) ∧
                  known schema (collection d) (segments (path p))) paths →
     field f (content d) = Some v →
     element v k = Some (VRef r) →
     getById (storage w) (target r) (ident r) = None →
     f ∈ heads paths →
     ∃ d' w', resolve schema d paths w = (inr d', w') ∧
              unresolved_at f k r v (content d')) ∧
  resolve tutorialSchema user1 [mkPath "posts" None] scenario =
    (inr (mkDocument "User" 1
            [ ("name", VPrim (PString "Alice"));
              ("posts", VSeq [ VDoc "Post" 10 post10;
                               VUnresolved (mkRef "Post" 11) ]) ]),
     mkWorld (storage scenario) [("Post", [10; 11]%Z)]).
Proof.
  split; [|by vm_compute].
  intros schema d paths w f v k r Hvalid Hf Hel Hmiss Hin.
  rewrite (resolve_valid schema d paths w Hvalid).
  eexists _, _. split; [done|]. cbn [content].
  apply (merge_paths_field (storage w) d f v
           (λ v', element v' k = Some (VUnresolved r) ∧
                  ∀ vs, v = VSeq vs →
                        ∃ vs', v' = VSeq vs' ∧ length vs' = length vs)).
  - done.
  - intros p rest _ _. split.
    + rewrite (expansion_element _ _ _ _ _ _ _ Hel). simpl.
      unfold lookup. by rewrite Hmiss.
    + intros vs ->. apply expansion_seq.
  - right. eauto.
Qed.
Lemma resolve_missing_target_witness :
  ∃ d' w', resolve tutorialSchema user1 [mkPath "posts" None] scenario = (inr d', w') ∧
           unresolved_at "posts" 1 (mkRef "Post" 11)
             (VSeq [VRef (mkRef "Post" 10); VRef (mkRef "Post" 11)]) (content d').
Proof.
  apply (proj1 resolve_missing_target tutorialSchema user1
           [mkPath "posts" None] scenario "posts"
           (VSeq [VRef (mkRef "Post" 10); VRef (mkRef "Post" 11)]) 1
           (mkRef "Post" 11)).
  - constructor; [|constructor]. apply check_path_spec. by vm_compute.
  - reflexivity.
  - reflexivity.
  - by vm_compute.
  - vm_compute. constructor.
Defined.

(** *** The batches of a level *)








(** *** What stands at the position of a Reference *)







(** *** Chains *)



(** *** No pair inside its own expansion *)














(** *** The statements on the scenarios *)

Lemma resolve_unknown_path_fails_witness :
  resolve tutorialSchema user1 [mkPath "posts" None; mkPath "name" None] scenario
    = (inl ResolutionError, scenario) ∧
  resolve tutorialSchema user1 [mkPath "posts..title" None] scenario
    = (inl ResolutionError, scenario).
Proof.
  split.
  - apply (resolve_unknown_path_fails tutorialSchema user1 _ scenario
             (mkPath "name" None)).
    + apply list_elem_of_further, list_elem_of_here.
    + right. intros Hk.
      assert (Hc : check_path tutorialSchema "User" ["name"] = true).
      { apply check_path_spec. split; [|exact Hk].
        rewrite list_elem_of_singleton. discriminate. }
      vm_compute in Hc. discriminate.
  - apply (resolve_unknown_path_fails tutorialSchema user1 _ scenario
             (mkPath "posts..title" None)).
    + apply list_elem_of_here.
    + left. apply list_elem_of_further, list_elem_of_here.
Defined.

Lemma resolve_frame_witness :
  ∃ d' w',
    resolve tutorialSchema user1 [mkPath "posts" None] scenario = (inr d', w') ∧
    content d' !! 0 = Some ("name", VPrim (PString "Alice")) ∧
    storage w' = storage scenario.
Proof.
  destruct (resolve tutorialSchema user1 [mkPath "posts" None] scenario)
    as [[e|d'] w'] eqn:Hres; [by vm_compute in Hres|].
  exists d', w'. split; [done|].
  destruct (resolve_frame tutorialSchema user1 d' [mkPath "posts" None]
              scenario w' Hres) as (_ & _ & _ & Hk & Hs & _).
  split; [|exact Hs].
  apply Hk; [reflexivity|].
  replace (heads [mkPath "posts" None]) with ["posts"] by (by vm_compute).
  rewrite list_elem_of_singleton. discriminate.
Defined.

End ResolverFacts.

(** * Further properties of the code *)

(** ** config/db.js and app.js: the event loop *)

Section ProcessMore.
Import Node.

(** Events other than the settling of the connection attempt leave the
    exit status, the connection and the promise as they are. *)
Lemma deliver_other (ev : App.Event) (p : Process) :
  ¬ App.is_settle ev →
  exit_code (App.deliver ev p) = exit_code p ∧
  db (App.deliver ev p) = db p ∧
  connectDB_promise (App.deliver ev p) = connectDB_promise p.
Proof.
  intros Hev. unfold App.deliver.
  destruct (exit_code p) eqn:Hx; [by rewrite Hx|].
  destruct ev as [r| |]; [by destruct Hev| |].
  - destruct (server p); simpl; auto.
  - destruct (server p); simpl; auto.
Qed.

Lemma run_app (evs1 evs2 : list App.Event) (p : Process) :
  App.run (evs1 ++ evs2) p = App.run evs2 (App.run evs1 p).
Proof. unfold App.run. apply foldl_app. Qed.

Lemma run_other (evs : list App.Event) (p : Process) :
  Forall (λ ev, ¬ App.is_settle ev) evs →
  exit_code (App.run evs p) = exit_code p ∧
  db (App.run evs p) = db p ∧
  connectDB_promise (App.run evs p) = connectDB_promise p.
Proof.
  intros H. revert p. induction H as [|ev evs Hev _ IH]; intros p; [done|].
  change (App.run (ev :: evs) p) with (App.run evs (App.deliver ev p)).
  destruct (IH (App.deliver ev p)) as (-> & -> & ->).
  by apply deliver_other.
Qed.

(** X1: whatever happened before, as long as the connection attempt had
    not settled, its failure ends the running application: the exit code
    is 1, the error line is the last one logged, and no request after it
    is accepted, even though the server was listening. The error line
    is logged when [app.listen] had accepted the port; otherwise the
    process had ended before the attempt could fail. *)
Theorem connection_failure_stops_server (e file : gmap string string)
    (pre post : list App.Event) (err : JsError) :
  Forall (λ ev, ¬ App.is_settle ev) pre →
  let before := App.run pre (App.main (boot e file)) in
  let q := App.run (pre ++ App.MongoSettled (Rejected err) :: post)
                   (App.main (boot e file)) in
  exit_code q = Some 1%Z ∧
  accepted q = accepted before ∧
  server q = server before ∧
  (is_Some (listen_endpoint (App.port_of (e ∪ file))) →
   console q = console before ++ [mkLog Stderr ("Error: " +:+ message err)]) ∧
  connectDB_promise q = Pending.
Proof.
  intros Hpre before q.
  destruct (listen_endpoint (App.port_of (e ∪ file))) as [ep|] eqn:Hep.
  - assert (Hsome : is_Some (listen_endpoint (App.port_of (e ∪ file))))
      by (by rewrite Hep).
    destruct (main_state e file Hsome) as (Hdb & Hpr & _ & Hex & _ & _).
    destruct (run_other pre (App.main (boot e file)) Hpre) as (Hx & Hd & Hp).
    fold before in Hx, Hd, Hp. rewrite Hex in Hx. rewrite Hdb in Hd.
    rewrite Hpr in Hp.
    assert (Hq : q = Db.connectDB_resume (Rejected err) before).
    { unfold q. rewrite run_app. fold before.
      change (App.run (?ev :: post) before)
        with (App.run post (App.deliver ev before)).
      assert (Hd1 : App.deliver (App.MongoSettled (Rejected err)) before
                    = Db.connectDB_resume (Rejected err) before).
      { unfold App.deliver. by rewrite Hx, Hd. }
      rewrite Hd1. apply (run_exited post _ 1%Z). by destruct before. }
    rewrite Hq. clearbody before. destruct before. simpl in *. by subst.
  - destruct (main_refused e file Hep) as (Hex & _).
    destruct (main_connecting e file) as (_ & _ & Hpr & _).
    unfold q, before. rewrite !(run_exited _ _ 1%Z Hex).
    repeat split; try done; by intros [? ?].
Qed.

(** X2: the bind of the socket and a successful connection may complete
    in either order, and the two runs differ in the order of the two log
    lines only. When [app.listen] has accepted the port the application
    ends up connected, listening, with the promise of [connectDB]
    fulfilled. *)
Theorem bind_and_connect_commute (e file : gmap string string) (host : string) :
  let p := App.main (boot e file) in
  let q1 := App.run [App.ServerBound; App.MongoSettled (Resolved host)] p in
  let q2 := App.run [App.MongoSettled (Resolved host); App.ServerBound] p in
  (is_Some (listen_endpoint (App.port_of (e ∪ file))) →
   db q1 = DbConnected host ∧ server q1 = Listening (App.PORT p) ∧
   connectDB_promise q1 = Fulfilled ∧ exit_code q1 = None) ∧
  db q2 = db q1 ∧ server q2 = server q1 ∧
  connectDB_promise q2 = connectDB_promise q1 ∧ exit_code q2 = exit_code q1 ∧
  env q2 = env q1 ∧ accepted q2 = accepted q1 ∧
  console q1 ≡ₚ console q2.
Proof.
  intros p q1 q2.
  destruct (listen_endpoint (App.port_of (e ∪ file))) as [ep|] eqn:Hep.
  - assert (Hsome : is_Some (listen_endpoint (App.port_of (e ∪ file))))
      by (by rewrite Hep).
    destruct (main_state e file Hsome) as (Hdb & Hpr & Hsrv & Hex & Hacc & Henv).
    fold p in Hdb, Hpr, Hsrv, Hex, Hacc, Henv.
    unfold q1, q2, App.run. unfold App.PORT in *. clearbody p.
    destruct p as [e0 f0 c0 x0 d0 pr0 s0 a0]. simpl in *. subst.
    unfold App.deliver. simpl.
    repeat split; try done.
    rewrite <- !app_assoc. apply Permutation_app_head. simpl. apply perm_swap.
  - destruct (main_refused e file Hep) as (Hex & _). fold p in Hex.
    unfold q1, q2. rewrite !(run_exited _ _ 1%Z Hex).
    repeat split; try done; by intros [? ?].
Qed.

(** X3: the connection is attempted on CLOUD_URI, taken from the
    environment and, when absent there, from the .env file; no other
    variable, such as the MONGO_URI and MONGO_URI_CLOUD that the comment
    of the file names, has any effect on it. *)
Theorem connectDB_reads_CLOUD_URI_only (e file : gmap string string)
    (k v : string) :
  k ≠ "CLOUD_URI" →
  db (App.main (boot (<[k := v]> e) file)) = db (App.main (boot e file)) ∧
  db (App.main (boot e (<[k := v]> file))) = db (App.main (boot e file)) ∧
  db (App.main (boot e file)) =
    DbConnecting (match e !! "CLOUD_URI" with
                  | Some uri => Some uri
                  | None => file !! "CLOUD_URI"
                  end).
Proof.
  intros Hk.
  destruct (main_connecting e file) as (_ & -> & _).
  destruct (main_connecting (<[k:=v]> e) file) as (_ & -> & _).
  destruct (main_connecting e (<[k:=v]> file)) as (_ & -> & _).
  rewrite !lookup_union, !lookup_insert_ne by done.
  repeat split. by destruct (e !! "CLOUD_URI"), (file !! "CLOUD_URI").
Qed.
End ProcessMore.


(** ** README-auth.md: the token header *)

Section TokenHeader.
Import Auth.

Lemma substring_all (s : string) : String.substring 0 (String.length s) s = s.
Proof. induction s as [|c s IH]; simpl; [done|]. by rewrite IH. Qed.

(** A string that starts with a pattern is the pattern followed by what
    [substring] cuts off behind it. *)
Lemma prefix_split (p s : string) :
  String.prefix p s = true →
  s = p +:+ String.substring (String.length p)
                             (String.length s - String.length p) s.
Proof.
  revert s. induction p as [|a p IH]; intros s.
  - intros _. cbn [String.length String.append]. by rewrite Nat.sub_0_r, substring_all.
  - destruct s as [|b s]; [done|]. cbn [String.prefix].
    destruct (Ascii.ascii_dec a b) as [->|]; [|done].
    intros Hp. simpl.
    change (String b s = String b (p +:+ String.substring (String.length p)
              (String.length s - String.length p) s)).
    f_equal. by apply IH.
Qed.

Lemma prefix_append (p t : string) : String.prefix p (p +:+ t) = true.
Proof.
  induction p as [|a p IH]; [by destruct t|].
  change (String.prefix (String a p) (String a (p +:+ t)) = true). simpl.
  by destruct (Ascii.ascii_dec a a).
Qed.

Lemma append_inj_l (p t t' : string) : p +:+ t = p +:+ t' → t = t'.
Proof.
  induction p as [|a p IH]; [done|].
  change (String a (p +:+ t) = String a (p +:+ t') → t = t').
  intros [= H]. auto.
Qed.

Lemma replace_unfold (p r s : string) :
  replace p r s =
    if String.prefix p s
    then r +:+ String.substring (String.length p) (String.length s - String.length p) s
    else match s with
         | EmptyString => EmptyString
         | String c s' => String c (replace p r s')
         end.
Proof. by destruct s. Qed.

(** Removing the pattern in front of a string. *)
Lemma replace_prefixed (p t : string) : replace p "" (p +:+ t) = t.
Proof.
  rewrite replace_unfold, prefix_append. simpl.
  pose proof (prefix_split p (p +:+ t) (prefix_append p t)) as Hs.
  symmetry. by apply (append_inj_l p).
Qed.

(** The headers whose token is empty. *)
Lemma replace_empty (h : string) :
  replace "Bearer " "" h = "" ↔ h = "" ∨ h = "Bearer ".
Proof.
  split.
  - rewrite replace_unfold. destruct (String.prefix "Bearer " h) eqn:Hp.
    + intros He.
      change (String.substring 7 (String.length h - 7) h = "") in He.
      right. rewrite (prefix_split _ _ Hp).
      change (String.length "Bearer ") with 7. by rewrite He.
    + destruct h; [auto|done].
  - intros [->| ->]; reflexivity.
Qed.
End TokenHeader.

(** ** README-auth.md: register, login, authenticate and the routes *)

Section RegisterMore.
Import Auth.

Variable bcrypt_hash : string → nat → string.
Variable jwt_sign : Payload → option string → string → option string.
Variable new_ObjectId : nat → string.

Local Abbreviation register' := (register bcrypt_hash jwt_sign new_ObjectId).

(** What [validate] checks for the user schema. *)
Lemma validate_userSchema_None (d : gmap string string) :
  validate userSchema d = None ↔
  (∃ u, d !! "username" = Some u ∧ u ≠ "") ∧
  (∃ pw, d !! "password" = Some pw ∧ pw ≠ "") ∧
  (∀ r, d !! "role" = Some r → r ∈ ["admin"; "user"]).
Proof.
  unfold validate, userSchema, validate_path. simpl.
  destruct (d !! "username") as [u|]; [|naive_solver].
  case_bool_decide; [naive_solver|].
  destruct (d !! "password") as [pw|]; [|naive_solver].
  case_bool_decide; [naive_solver|].
  destruct (d !! "role") as [r|]; [|naive_solver].
  case_bool_decide; naive_solver.
Qed.

(** The only unique index of the schema is the one on [username]. *)
Lemma check_unique_userSchema (d : gmap string string) (coll : list Document) :
  check_unique userSchema d coll =
    match d !! "username" with
    | Some u =>
        if bool_decide (Some u ∈ (λ x, fields x !! "username") <$> coll)
        then Some (DuplicateKey "username" u) else None
    | None => None
    end.
Proof.
  unfold check_unique, userSchema. simpl.
  destruct (d !! "username") as [u|]; simpl.
  - case_bool_decide; [done|]. by destruct (d !! "password"), (d !! "role").
  - by destruct (d !! "password"), (d !! "role").
Qed.

(** The paths of the document built from the request body. *)
Lemma new_User_fields (req : Request) (s : Server) :
  let d := fields (new_User new_ObjectId
                     (pick ["username"; "password"; "role"] (body req)) s) in
  d !! "username" = body req !! "username" ∧
  d !! "password" = body req !! "password" ∧
  d !! "role" = Some (option.default "user" (body req !! "role")).
Proof.
  cbv zeta. unfold new_User. cbn [fields]. rewrite apply_defaults_userSchema.
  set (obj := pick _ (body req)).
  assert (Hu : obj !! "username" = body req !! "username")
    by (apply pick_lookup; rewrite !elem_of_cons; auto).
  assert (Hp : obj !! "password" = body req !! "password")
    by (apply pick_lookup; rewrite !elem_of_cons; auto).
  assert (Hr : obj !! "role" = body req !! "role")
    by (apply pick_lookup; rewrite !elem_of_cons; auto).
  rewrite <- Hu, <- Hp, <- Hr.
  destruct (obj !! "role") as [r|] eqn:Er; simpl; [done|].
  by rewrite lookup_insert_eq, !lookup_insert_ne.
Qed.


(** The error of a failed validation names the first failing path. *)
Lemma validate_userSchema_Some (d : gmap string string) (e : SaveError) :
  validate userSchema d = Some e →
  (e = RequiredError "username" ∧ d !! "username" ∈ [None; Some ""]) ∨
  (e = RequiredError "password" ∧ d !! "password" ∈ [None; Some ""]) ∨
  (∃ v, e = EnumError "role" v ∧ d !! "role" = Some v ∧ v ∉ ["admin"; "user"]).
Proof.
  unfold validate, userSchema, validate_path. simpl.
  destruct (d !! "username") as [u|].
  2: { intros [= <-]. left. split; [done|]. apply list_elem_of_here. }
  case_bool_decide as Hu.
  { intros [= <-]. left. subst u. split; [done|].
    apply list_elem_of_further, list_elem_of_here. }
  destruct (d !! "password") as [pw|].
  2: { intros [= <-]. right. left. split; [done|]. apply list_elem_of_here. }
  case_bool_decide as Hp.
  { intros [= <-]. right. left. subst pw. split; [done|].
    apply list_elem_of_further, list_elem_of_here. }
  destruct (d !! "role") as [r|]; [|done].
  case_bool_decide as Hr; [done|]. intros [= <-]. right. right. eauto.
Qed.

(** The two ways [register] ends: nothing stored and a 400 answer that
    names the failed check, or one validated document appended, answered
    201 when the token could be signed and 400 when it could not. *)
Lemma register_cases (req : Request) (s : Server) :
  (∃ e, register' req s = (mkResponse 400 (JSaveError e), s) ∧
        rejection req s e) ∨
  ∃ u pw saved,
    body req !! "username" = Some u ∧ u ≠ "" ∧
    body req !! "password" = Some pw ∧ pw ≠ "" ∧
    option.default "user" (body req !! "role") ∈ ["admin"; "user"] ∧
    (Some u ∉ usernames s) ∧
    _id saved = new_ObjectId (next_id s) ∧
    fields saved !! "username" = Some u ∧
    fields saved !! "password" = Some (bcrypt_hash pw 10) ∧
    fields saved !! "role" = Some (option.default "user" (body req !! "role")) ∧
    (register' req s).2 = mkServer (users s ++ [saved]) (S (next_id s)) (env s) ∧
    (register' req s).1 =
      match jwt_sign (mkPayload (new_ObjectId (next_id s))
                        (Some (option.default "user" (body req !! "role"))))
                     (env s !! "JWT_SECRET") "1h" with
      | Some token => mkResponse 201 (JToken token)
      | None => mkResponse 400 (JMessage "secretOrPrivateKey must have a value")
      end.
Proof.
  destruct (new_User_fields req s) as (Hu & Hp & Hr).
  unfold register, save.
  set (user := new_User new_ObjectId _ s) in *.
  assert (Hid : _id user = new_ObjectId (next_id s)) by done.
  clearbody user.
  destruct (validate userSchema (fields user)) as [e|] eqn:Hv.
  { left. exists e. split; [done|].
    apply validate_userSchema_Some in Hv as [[-> H]|[[-> H]|(v & -> & H1 & H2)]].
    - rewrite Hu in H. split; [apply list_elem_of_here|done].
    - rewrite Hp in H. split; [apply list_elem_of_further, list_elem_of_here|done].
    - rewrite Hr in H1. simpl. split; [done|].
      destruct (body req !! "role") as [r|]; simpl in H1.
      + injection H1 as ->. done.
      + injection H1 as <-. exfalso. apply H2.
        apply list_elem_of_further, list_elem_of_here. }
  apply validate_userSchema_None in Hv as ((u & Hu' & Hune) & (pw & Hp' & Hpne) & Hrole).
  rewrite check_unique_userSchema. unfold pre_save. rewrite Hp'.
  rewrite lookup_insert_ne by done. rewrite Hu'.
  case_bool_decide as Hdup.
  { left. exists (DuplicateKey "username" u). split; [done|].
    simpl. split; [done|]. split; [congruence|done]. }
  right. exists u, pw, (mkDocument (_id user) (<["password" := bcrypt_hash pw 10]> (fields user))).
  unfold generateToken. simpl.
  assert (Hsr : <["password" := bcrypt_hash pw 10]> (fields user) !! "role"
                = Some (option.default "user" (body req !! "role")))
    by (by rewrite lookup_insert_ne).
  assert (Hsu : <["password" := bcrypt_hash pw 10]> (fields user) !! "username"
                = Some u) by (by rewrite lookup_insert_ne).
  rewrite Hsr, Hsu, lookup_insert_eq, Hid.
  repeat split; try congruence.
  all: try (by apply Hrole).
  all: try (by destruct (jwt_sign _ _ _)).
  exact Hdup.
Qed.

(** A request that passes every check is stored. *)
Lemma register_accepts (req : Request) (s : Server) (u pw : string) :
  body req !! "username" = Some u → u ≠ "" →
  body req !! "password" = Some pw → pw ≠ "" →
  (Some u ∉ usernames s) →
  body req !! "role" ∈ [None; Some "admin"; Some "user"] →
  ∃ saved,
    _id saved = new_ObjectId (next_id s) ∧
    fields saved !! "username" = Some u ∧
    fields saved !! "password" = Some (bcrypt_hash pw 10) ∧
    fields saved !! "role" = Some (option.default "user" (body req !! "role")) ∧
    (register' req s).2 = mkServer (users s ++ [saved]) (S (next_id s)) (env s) ∧
    (register' req s).1 =
      match jwt_sign (mkPayload (new_ObjectId (next_id s))
                        (Some (option.default "user" (body req !! "role"))))
                     (env s !! "JWT_SECRET") "1h" with
      | Some token => mkResponse 201 (JToken token)
      | None => mkResponse 400 (JMessage "secretOrPrivateKey must have a value")
      end.
Proof.
  intros Hu Hune Hp Hpne Hfresh Hrole.
  destruct (register_cases req s) as [(e & _ & Hrej)|(u' & pw' & saved & H)].
  - exfalso. destruct e as [p|p v|p v]; simpl in Hrej.
    + destruct Hrej as [Hin Hbad].
      rewrite !elem_of_cons, elem_of_nil in Hin.
      destruct Hin as [->|[->|[]]]; rewrite ?Hu, ?Hp in Hbad;
        rewrite !elem_of_cons, elem_of_nil in Hbad; naive_solver.
    + destruct Hrej as (-> & Hv & Hno). rewrite Hv in Hrole.
      rewrite !elem_of_cons, elem_of_nil in Hrole.
      rewrite !elem_of_cons, elem_of_nil in Hno. naive_solver.
    + destruct Hrej as (-> & Hv & Hin). rewrite Hu in Hv. by injection Hv as <-.
  - destruct H as (Hu' & _ & Hp' & _ & _ & _ & H).
    rewrite Hu in Hu'. rewrite Hp in Hp'. injection Hu' as <-. injection Hp' as <-.
    exists saved. exact H.
Qed.

(** X9: [register] keeps the usernames of the collection pairwise
    distinct, whatever the request. *)
Theorem register_keeps_usernames_unique (req : Request) (s : Server) :
  NoDup (usernames s) → NoDup (usernames (register' req s).2).
Proof.
  intros Hnd.
  destruct (register_cases req s) as [(e & -> & _)|(u & pw & saved & H)]; [done|].
  destruct H as (_ & _ & _ & _ & _ & Hfresh & _ & Hsu & _ & _ & -> & _).
  unfold usernames in *. simpl. rewrite fmap_app. simpl. rewrite Hsu.
  apply NoDup_app. split; [done|]. split.
  - intros x Hx Hin. apply list_elem_of_singleton in Hin. by subst.
  - apply NoDup_singleton.
Qed.

(** X10: when every stored document satisfies the schema (non-empty
    username, a password, a role of the enum), so does every document
    stored after [register], whatever the request. *)
Theorem register_keeps_schema (req : Request) (s : Server) :
  Forall schema_ok (users s) → Forall schema_ok (users (register' req s).2).
Proof.
  intros Hall.
  destruct (register_cases req s) as [(e & -> & _)|(u & pw & saved & H)]; [done|].
  destruct H as (_ & Hune & _ & _ & Hr & _ & _ & Hsu & Hsp & Hsr & -> & _).
  simpl. apply Forall_app. split; [done|]. apply Forall_singleton.
  repeat split; eauto.
Qed.

(** X13: the document is saved before the token is signed: when
    [jwt.sign] throws (no secret configured) a valid registration is
    answered 400 although the account has been stored. *)
Theorem register_stores_before_signing (req : Request) (s : Server)
    (u pw : string) :
  body req !! "username" = Some u → u ≠ "" →
  body req !! "password" = Some pw → pw ≠ "" →
  (Some u ∉ usernames s) →
  body req !! "role" ∈ [None; Some "admin"; Some "user"] →
  jwt_sign (mkPayload (new_ObjectId (next_id s))
                      (Some (option.default "user" (body req !! "role"))))
           (env s !! "JWT_SECRET") "1h" = None →
  status (register' req s).1 = 400%Z ∧
  ∃ saved, users (register' req s).2 = users s ++ [saved] ∧
           fields saved !! "username" = Some u.
Proof.
  intros Hu Hune Hp Hpne Hfresh Hrole Hsign.
  destruct (register_accepts req s u pw Hu Hune Hp Hpne Hfresh Hrole)
    as (saved & _ & Hsu & _ & _ & -> & ->).
  rewrite Hsign. split; [done|]. eauto.
Qed.

(** X11: an otherwise valid registration whose username is taken is
    refused by the unique index: the answer is 400 with the message of
    the duplicate-key error on [username], no token is issued, and the
    server is left as it was. *)
Theorem register_duplicate_username (req : Request) (s : Server) (u pw : string) :
  body req !! "username" = Some u → u ≠ "" →
  body req !! "password" = Some pw → pw ≠ "" →
  body req !! "role" ∈ [None; Some "admin"; Some "user"] →
  Some u ∈ usernames s →
  register' req s =
    (mkResponse 400 (JSaveError (DuplicateKey "username" u)), s).
Proof.
  intros Hu Hune Hp Hpne Hrole Hdup.
  destruct (register_cases req s) as [(e & Hres & Hrej)|(u' & pw' & saved & H)].
  - destruct e as [p|p v|p v]; simpl in Hrej.
    + exfalso. destruct Hrej as [Hin Hbad].
      rewrite !elem_of_cons, elem_of_nil in Hin.
      destruct Hin as [->|[->|[]]]; rewrite ?Hu, ?Hp in Hbad;
        rewrite !elem_of_cons, elem_of_nil in Hbad; naive_solver.
    + exfalso. destruct Hrej as (-> & Hv & Hno). rewrite Hv in Hrole.
      rewrite !elem_of_cons, elem_of_nil in Hrole.
      rewrite !elem_of_cons, elem_of_nil in Hno. naive_solver.
    + destruct Hrej as (-> & Hv & _). rewrite Hu in Hv. by injection Hv as <-.
  - exfalso. destruct H as (Hu' & _ & _ & _ & _ & Hfresh & _).
    rewrite Hu in Hu'. by injection Hu' as <-.
Qed.

(** X12: a role outside the enum of the schema is refused: the answer
    is 400 and nothing is stored. *)
Theorem register_rejects_unlisted_role (req : Request) (s : Server) (r : string) :
  body req !! "role" = Some r → r ∉ ["admin"; "user"] →
  (register' req s).2 = s ∧ status (register' req s).1 = 400%Z.
Proof.
  intros Hr Hno.
  destruct (register_cases req s) as [(e & -> & _)|(u & pw & saved & H)]; [done|].
  exfalso. destruct H as (_ & _ & _ & _ & Hin & _). rewrite Hr in Hin. done.
Qed.

End RegisterMore.

Section LoginMore.
Import Auth.

Variable bcrypt_hash : string → nat → string.
Variable bcrypt_compare : option string → option string → string + bool.
Variable jwt_sign : Payload → option string → string → option string.
Variable new_ObjectId : nat → string.

(** [jwt.sign] at the later time of a second call. *)
Variable jwt_sign_later : Payload → option string → string → option string.

Local Abbreviation register' := (register bcrypt_hash jwt_sign new_ObjectId).
Local Abbreviation login' := (login bcrypt_compare jwt_sign).

(** *** login *)

(** [findOne] and the usernames of the collection. *)
Lemma findOne_None (uo : option string) (s : Server) :
  findOne uo s = None ↔ uo ∉ usernames s.
Proof.
  unfold findOne, usernames. rewrite fmap_None, list_find_None, list_elem_of_fmap.
  rewrite Forall_forall. split.
  - intros H (x & -> & Hx). by apply (H x).
  - intros H x Hx Heq. apply H. eauto.
Qed.


Lemma findOne_appended (u : string) (s : Server) (saved : Document) (n : nat)
    (e : gmap string string) :
  Some u ∉ usernames s → fields saved !! "username" = Some u →
  findOne (Some u) (mkServer (users s ++ [saved]) n e) = Some saved.
Proof.
  intros Hfresh Hsu. unfold findOne. simpl.
  apply findOne_None in Hfresh. unfold findOne in Hfresh.
  apply fmap_None in Hfresh.
  rewrite list_find_app_r by done. simpl.
  rewrite decide_True by done. done.
Qed.



(** [login] never writes. *)
Lemma login_reads_only (req : Request) (s : Server) : (login' req s).2 = s.
Proof.
  unfold login. destruct (findOne _ s); [|done].
  destruct (comparePassword _ _ _) as [msg|[|]]; [done| |done].
  by destruct (generateToken _ _ _).
Qed.

(** X16: after a registration answered 201, a login with the same body
    is answered 200 with a token that [jwt.sign] gives, at the time of
    the login, for the identifier and the role of the registered user;
    the state is left as it is. This holds provided [bcrypt.compare]
    accepts a password against its own hash and [jwt.sign] does not
    fail at one time on what it signs at another. The token of the
    login is the one of the registration when [jwt.sign] gives for it
    what it gave then, as within the same second. *)
Theorem register_then_login (req : Request) (s : Server) (u pw token : string) :
  body req !! "username" = Some u → u ≠ "" →
  body req !! "password" = Some pw → pw ≠ "" →
  (Some u ∉ usernames s) →
  body req !! "role" ∈ [None; Some "admin"; Some "user"] →
  bcrypt_compare (Some pw) (Some (bcrypt_hash pw 10)) = inr true →
  (∀ p k, is_Some (jwt_sign p k "1h") → is_Some (jwt_sign_later p k "1h")) →
  (register' req s).1 = mkResponse 201 (JToken token) →
  let s' := (register' req s).2 in
  let payload := mkPayload (new_ObjectId (next_id s))
                           (Some (option.default "user" (body req !! "role"))) in
  jwt_sign payload (env s !! "JWT_SECRET") "1h" = Some token ∧
  ∃ token',
    jwt_sign_later payload (env s !! "JWT_SECRET") "1h" = Some token' ∧
    login bcrypt_compare jwt_sign_later req s' =
      (mkResponse 200 (JToken token'), s') ∧
    (jwt_sign_later payload (env s !! "JWT_SECRET") "1h" =
     jwt_sign payload (env s !! "JWT_SECRET") "1h" → token' = token).
Proof.
  intros Hu Hune Hp Hpne Hfresh Hrole Hcmp Hlater Hreg s' payload.
  destruct (register_accepts bcrypt_hash jwt_sign new_ObjectId req s u pw Hu Hune Hp Hpne Hfresh Hrole)
    as (saved & Hid & Hsu & Hsp & Hsr & Hs' & Hres).
  rewrite Hres in Hreg. unfold s'. rewrite Hs'. clear s'. fold payload in Hreg.
  destruct (jwt_sign payload (env s !! "JWT_SECRET") "1h") as [t|] eqn:Hsign;
    [|done].
  injection Hreg as ->. split; [done|].
  destruct (Hlater payload (env s !! "JWT_SECRET")) as [t' Ht'];
    [by rewrite Hsign|].
  exists t'. split; [done|]. split; [|by rewrite Ht'; intros [= ->]].
  unfold login. rewrite Hu, (findOne_appended u s saved _ _ Hfresh Hsu).
  unfold comparePassword. rewrite Hp, Hsp, Hcmp.
  unfold generateToken. simpl. rewrite Hid, Hsr. fold payload. by rewrite Ht'.
Qed.

End LoginMore.

Section AuthenticateMore.
Import Auth.

Variable jwt_verify : string → option string → option Payload.

Local Abbreviation authenticate' := (authenticate jwt_verify).

(** *** authenticate *)

(** X4: [authenticate] answers 401 'Access denied' exactly when the
    Authorization header is absent, empty, or the bare scheme. *)
Theorem authenticate_access_denied (s : Server) (req : Request) :
  authenticate' s req = Respond (mkResponse 401 (JMessage "Access denied")) ↔
  headers req !! "Authorization" ∈ [None; Some ""; Some "Bearer "].
Proof.
  unfold authenticate. rewrite !elem_of_cons, elem_of_nil.
  destruct (headers req !! "Authorization") as [h|]; simpl; [|naive_solver].
  case_bool_decide as Ht.
  - apply replace_empty in Ht. naive_solver.
  - rewrite replace_empty in Ht. destruct (jwt_verify _ _); naive_solver.
Qed.

(** X5: when [authenticate] calls [next()], the request is the incoming
    one with [user] replaced by what [jwt.verify] decoded from the
    header: a [user] property already on the request is never kept. *)
Theorem authenticate_user_from_token (s : Server) (req req' : Request) :
  authenticate' s req = Next req' →
  ∃ h p, headers req !! "Authorization" = Some h ∧
    jwt_verify (replace "Bearer " "" h) (env s !! "JWT_SECRET") = Some p ∧
    req' = mkRequest (headers req) (params req) (body req) (Some p).
Proof.
  unfold authenticate.
  destruct (headers req !! "Authorization") as [h|]; simpl; [|done].
  case_bool_decide; [done|].
  destruct (jwt_verify _ _) as [p|] eqn:Hv; [|done].
  intros [= <-]. eauto.
Qed.

(** X6: the Bearer scheme is not required: a token that verifies is
    accepted with or without it in front. *)
Theorem authenticate_scheme_optional (s : Server) (req : Request)
    (t : string) (p : Payload) :
  t ≠ "" → replace "Bearer " "" t = t →
  jwt_verify t (env s !! "JWT_SECRET") = Some p →
  headers req !! "Authorization" = Some t ∨
  headers req !! "Authorization" = Some ("Bearer " +:+ t) →
  authenticate' s req =
    Next (mkRequest (headers req) (params req) (body req) (Some p)).
Proof.
  intros Hne Hbare Hv Hh. unfold authenticate.
  assert (Ht : replace "Bearer " "" <$> headers req !! "Authorization" = Some t).
  { destruct Hh as [-> | ->].
    - change (Some (replace "Bearer " "" t) = Some t). by rewrite Hbare.
    - change (Some (replace "Bearer " "" ("Bearer " +:+ t)) = Some t).
      by rewrite replace_prefixed. }
  rewrite Ht. rewrite bool_decide_eq_false_2 by done. by rewrite Hv.
Qed.

(** *** routes *)

(** X7: a request without Authorization header reaches the controller
    of the two GET routes and is answered 401 on every other route. *)
Theorem routes_without_token (s : Server) (r : Route) (req : Request) :
  r ∈ pokemonRoutes jwt_verify s →
  headers req !! "Authorization" = None →
  run_middlewares (middlewares r) req =
    match method r with
    | GET => Next req
    | _ => Respond (mkResponse 401 (JMessage "Access denied"))
    end.
Proof.
  intros Hr Hh.
  assert (Ha : authenticate' s req = Respond (mkResponse 401 (JMessage "Access denied"))).
  { unfold authenticate. by rewrite Hh. }
  revert Hr. unfold pokemonRoutes. rewrite !elem_of_cons, elem_of_nil.
  intros [->|[->|[->|[->|[->|[]]]]]]; simpl; by rewrite ?Ha.
Qed.

(** X8: with a verified token whose role is not admin, the routes of
    Step 4 (behind [authenticate] only) let the request through to every
    controller, and the routes with [authorize(['admin'])] answer 403 on
    every mutating route. *)
Theorem role_check_closes_mutating_routes (s : Server) (req : Request)
    (h : string) (p : Payload) (r1 r2 : Route) :
  headers req !! "Authorization" = Some h →
  replace "Bearer " "" h ≠ "" →
  jwt_verify (replace "Bearer " "" h) (env s !! "JWT_SECRET") = Some p →
  role p ≠ Some "admin" →
  r1 ∈ pokemonRoutes_authenticated jwt_verify s →
  r2 ∈ pokemonRoutes jwt_verify s → method r2 ≠ GET →
  (∃ req', run_middlewares (middlewares r1) req = Next req') ∧
  run_middlewares (middlewares r2) req =
    Respond (mkResponse 403 (JMessage "Forbidden")).
Proof.
  intros Hh Hne Hv Hrole H1 H2 Hm.
  assert (Ha : authenticate' s req =
               Next (mkRequest (headers req) (params req) (body req) (Some p))).
  { unfold authenticate. rewrite Hh. simpl.
    rewrite bool_decide_eq_false_2 by done. by rewrite Hv. }
  assert (Hz : authorize ["admin"]
                 (mkRequest (headers req) (params req) (body req) (Some p)) =
               Respond (mkResponse 403 (JMessage "Forbidden"))).
  { unfold authorize. simpl. destruct (role p) as [r|]; simpl; [|done].
    rewrite bool_decide_eq_false_2; [done|].
    rewrite list_elem_of_singleton. congruence. }
  split.
  - revert H1. unfold pokemonRoutes_authenticated.
    rewrite !elem_of_cons, elem_of_nil.
    intros [->|[->|[->|[->|[->|[]]]]]]; simpl; rewrite ?Ha; eauto.
  - revert H2 Hm. unfold pokemonRoutes. rewrite !elem_of_cons, elem_of_nil.
    intros [->|[->|[->|[->|[->|[]]]]]]; simpl; try done; by rewrite Ha, Hz.
Qed.

End AuthenticateMore.

Section Escalation.
Import Auth.

Variable bcrypt_hash : string → nat → string.
Variable jwt_sign : Payload → option string → string → option string.
Variable jwt_verify : string → option string → option Payload.
Variable new_ObjectId : nat → string.

Local Abbreviation register' := (register bcrypt_hash jwt_sign new_ObjectId).
Local Abbreviation authenticate' := (authenticate jwt_verify).

(** X17: the token answered to a registration with the admin role
    passes [authenticate] and [authorize(['admin'])] on every route,
    provided [jwt.verify] decodes the token to the payload it was signed
    over. *)
Theorem registered_admin_passes_guards (req req2 : Request) (s : Server)
    (u pw token : string) (r : Route) :
  body req !! "username" = Some u → u ≠ "" →
  body req !! "password" = Some pw → pw ≠ "" →
  (Some u ∉ usernames s) →
  body req !! "role" = Some "admin" →
  (register' req s).1 = mkResponse 201 (JToken token) →
  token ≠ "" →
  jwt_verify token (env s !! "JWT_SECRET") =
    Some (mkPayload (new_ObjectId (next_id s)) (Some "admin")) →
  headers req2 !! "Authorization" = Some ("Bearer " +:+ token) →
  r ∈ pokemonRoutes jwt_verify (register' req s).2 →
  run_middlewares (middlewares r) req2 =
    Next (match method r with
          | GET => req2
          | _ => mkRequest (headers req2) (params req2) (body req2)
                   (Some (mkPayload (new_ObjectId (next_id s)) (Some "admin")))
          end).
Proof.
  intros Hu Hune Hp Hpne Hfresh Hrole Hreg Hne Hjwt Hh Hr.
  destruct (register_accepts bcrypt_hash jwt_sign new_ObjectId req s u pw Hu Hune Hp Hpne Hfresh) as
    (saved & _ & _ & _ & _ & Hs' & Hres).
  { rewrite Hrole. apply list_elem_of_further, list_elem_of_here. }
  rewrite Hres, Hrole in Hreg. simpl in Hreg.
  destruct (jwt_sign _ _ _) as [t|] eqn:Hsign; [|done].
  injection Hreg as ->. clear Hsign. rename Hjwt into Hsign.
  set (s' := (register' req s).2) in *.
  assert (Henv : env s' = env s) by (by rewrite Hs').
  assert (Ha : authenticate' s' req2 =
               Next (mkRequest (headers req2) (params req2) (body req2)
                       (Some (mkPayload (new_ObjectId (next_id s)) (Some "admin"))))).
  { unfold authenticate. rewrite Hh.
    change (replace "Bearer " "" <$> Some ("Bearer " +:+ token))
      with (Some (replace "Bearer " "" ("Bearer " +:+ token))).
    rewrite replace_prefixed. cbv beta iota.
    rewrite (bool_decide_eq_false_2 (token = "") Hne).
    by rewrite Henv, Hsign. }
  clearbody s'.
  revert Hr. unfold pokemonRoutes. rewrite !elem_of_cons, elem_of_nil.
  intros [->|[->|[->|[->|[->|[]]]]]]; simpl; try done; rewrite Ha;
    unfold authorize; cbn [user role includes];
    by rewrite bool_decide_eq_true_2 by apply list_elem_of_here.
Qed.

End Escalation.

(** ** README.md: the validator of the email path *)

Section EmailFacts.
Import EmailValidator.

Lemma matches_void_inv (s : JsString) : matches Void s ↔ False.
Proof. split; [inversion 1|done]. Qed.

Lemma matches_eps_inv (s : JsString) : matches Eps s ↔ s = [].
Proof. split; [by inversion 1|intros ->; constructor]. Qed.

Lemma matches_class_inv (p : N → bool) (s : JsString) :
  matches (Class p) s ↔ ∃ c, s = [c] ∧ p c = true.
Proof.
  split; [inversion 1; subst; eauto|]. intros (c & -> & Hc). by constructor.
Qed.

Lemma matches_cat_inv (r1 r2 : Regex) (s : JsString) :
  matches (Cat r1 r2) s ↔ ∃ s1 s2, s = s1 ++ s2 ∧ matches r1 s1 ∧ matches r2 s2.
Proof.
  split; [inversion 1; subst; eauto|].
  intros (s1 & s2 & -> & H1 & H2). by constructor.
Qed.

Lemma matches_alt_inv (r1 r2 : Regex) (s : JsString) :
  matches (Alt r1 r2) s ↔ matches r1 s ∨ matches r2 s.
Proof.
  split; [inversion 1; subst; auto|].
  intros [H|H]; [by apply matches_alt_l|by apply matches_alt_r].
Qed.

Lemma nullable_spec (r : Regex) : nullable r = true ↔ matches r [].
Proof.
  induction r as [| |p|r1 IH1 r2 IH2|r1 IH1 r2 IH2|r IH]; simpl.
  - by rewrite matches_void_inv.
  - by rewrite matches_eps_inv.
  - rewrite matches_class_inv. split; [done|]. by intros (c & ? & _).
  - rewrite andb_true_iff, IH1, IH2, matches_cat_inv. split.
    + intros [H1 H2]. by exists [], [].
    + intros (s1 & s2 & E & H1 & H2). symmetry in E.
      apply app_eq_nil in E as [-> ->]. done.
  - by rewrite orb_true_iff, IH1, IH2, matches_alt_inv.
  - split; [constructor|done].
Qed.

Lemma star_cons_inv (r : Regex) (c : N) (s : JsString) :
  matches (Star r) (c :: s) →
  ∃ s1 s2, s = s1 ++ s2 ∧ matches r (c :: s1) ∧ matches (Star r) s2.
Proof.
  intros H. remember (Star r) as r' eqn:Er. remember (c :: s) as s' eqn:Es.
  revert s Es. induction H as [| | | | | |r0 s1 s2 H1 _ H2 IH2]; intros t Es;
    try discriminate.
  injection Er as ->. destruct s1 as [|c1 s1]; simpl in Es.
  - by apply IH2.
  - injection Es as -> <-. eauto.
Qed.

Lemma deriv_spec (r : Regex) (c : N) (s : JsString) :
  matches (deriv c r) s ↔ matches r (c :: s).
Proof.
  revert s. induction r as [| |p|r1 IH1 r2 IH2|r1 IH1 r2 IH2|r IH]; intros s; simpl.
  - by rewrite !matches_void_inv.
  - rewrite matches_void_inv, matches_eps_inv. done.
  - rewrite matches_class_inv. destruct (p c) eqn:Hp.
    + rewrite matches_eps_inv. split; [intros ->; eauto|].
      by intros (c' & [= -> ->] & _).
    + rewrite matches_void_inv. split; [done|].
      intros (c' & [= -> ->] & ?). congruence.
  - assert (Hcat : matches (Cat (deriv c r1) r2) s ↔
                   ∃ s1 s2, s = s1 ++ s2 ∧ matches r1 (c :: s1) ∧ matches r2 s2).
    { rewrite matches_cat_inv. by setoid_rewrite IH1. }
    rewrite (matches_cat_inv r1 r2). split.
    + destruct (nullable r1) eqn:Hn.
      * rewrite matches_alt_inv, Hcat, IH2. intros [(s1 & s2 & -> & H1 & H2)|H].
        -- by exists (c :: s1), s2.
        -- apply nullable_spec in Hn. by exists [], (c :: s).
      * rewrite Hcat. intros (s1 & s2 & -> & H1 & H2). by exists (c :: s1), s2.
    + intros (s1 & s2 & E & H1 & H2). destruct s1 as [|c1 s1]; simpl in E.
      * subst s2. apply nullable_spec in H1. rewrite H1.
        apply matches_alt_inv. right. by apply IH2.
      * injection E as -> ->.
        destruct (nullable r1); [apply matches_alt_inv; left|];
          apply Hcat; eauto.
  - by rewrite !matches_alt_inv, IH1, IH2.
  - rewrite matches_cat_inv. split.
    + intros (s1 & s2 & -> & H1 & H2). apply IH in H1.
      by apply (matches_star_more r (c :: s1) s2).
    + intros H. apply star_cons_inv in H as (s1 & s2 & -> & Ha & Hb).
      exists s1, s2. split; [done|]. split; [by apply IH|done].
Qed.

(** The matcher decides the language of the expression. *)
Lemma test_spec (r : Regex) (s : JsString) : test r s = true ↔ matches r s.
Proof.
  unfold test. revert r. induction s as [|c s IH]; intros r; simpl.
  - apply nullable_spec.
  - rewrite IH. apply deriv_spec.
Qed.

Lemma matches_star_class (p : N → bool) (s : JsString) :
  matches (Star (Class p)) s ↔ Forall (λ c, p c = true) s.
Proof.
  split.
  - intros H. remember (Star (Class p)) as r eqn:Er.
    induction H as [| | | | | |r0 s1 s2 H1 _ H2 IH2]; try discriminate; [done|].
    injection Er as ->. apply Forall_app. split; [|by apply IH2].
    apply matches_class_inv in H1 as (c & -> & Hc). by constructor.
  - induction 1 as [|c s Hc _ IH]; [constructor|].
    apply (matches_star_more _ [c] s); [by constructor|done].
Qed.

Lemma matches_plus_class (p : N → bool) (s : JsString) :
  matches (Plus (Class p)) s ↔ s ≠ [] ∧ Forall (λ c, p c = true) s.
Proof.
  unfold Plus. rewrite matches_cat_inv.
  setoid_rewrite matches_class_inv. setoid_rewrite matches_star_class. split.
  - intros (s1 & s2 & -> & (c & -> & Hc) & Hs). split; [done|]. by constructor.
  - intros [Hne Hall]. destruct s as [|c s]; [done|].
    apply Forall_cons in Hall as [Hc Hs]. exists [c], s. eauto.
Qed.

Lemma matches_char (k : N) (s : JsString) :
  matches (Class (λ c, (c =? k)%N)) s ↔ s = [k].
Proof.
  rewrite matches_class_inv. split.
  - intros (c & -> & Hc). by apply N.eqb_eq in Hc as ->.
  - intros ->. exists k. split; [done|]. apply N.eqb_refl.
Qed.

(** X18: the validator accepts exactly the values made of a non-empty
    part, an at sign, a non-empty part, a dot and a non-empty part, where
    no part holds white space or an at sign. *)
Theorem validator_spec (v : JsString) :
  validator v = true ↔
  ∃ a b c, v = a ++ [64%N] ++ b ++ [46%N] ++ c ∧
           a ≠ [] ∧ b ≠ [] ∧ c ≠ [] ∧
           Forall (λ x, plain x = true) (a ++ b ++ c).
Proof.
  unfold validator, email_pattern. rewrite test_spec. split.
  - intros H.
    apply matches_cat_inv in H as (a & s1 & -> & Ha & H).
    apply matches_cat_inv in H as (x & s2 & -> & Hx & H).
    apply matches_char in Hx as ->.
    apply matches_cat_inv in H as (b & s3 & -> & Hb & H).
    apply matches_cat_inv in H as (y & c & -> & Hy & Hc).
    apply matches_char in Hy as ->.
    apply matches_plus_class in Ha as [Ha Hfa].
    apply matches_plus_class in Hb as [Hb Hfb].
    apply matches_plus_class in Hc as [Hc Hfc].
    exists a, b, c. rewrite !Forall_app. done.
  - intros (a & b & c & -> & Ha & Hb & Hc & Hf).
    rewrite !Forall_app in Hf. destruct Hf as (Hfa & Hfb & Hfc).
    apply matches_cat_inv. exists a, ([64%N] ++ b ++ [46%N] ++ c).
    split; [done|]. split; [by apply matches_plus_class|].
    apply matches_cat_inv. exists [64%N], (b ++ [46%N] ++ c).
    split; [done|]. split; [by apply matches_char|].
    apply matches_cat_inv. exists b, ([46%N] ++ c).
    split; [done|]. split; [by apply matches_plus_class|].
    apply matches_cat_inv. exists [46%N], c.
    split; [done|]. split; [by apply matches_char|by apply matches_plus_class].
Qed.

Lemma plain_spec (x : N) :
  plain x = true ↔ is_space x = false ∧ x ≠ 64%N.
Proof.
  unfold plain. rewrite negb_true_iff, orb_false_iff, N.eqb_neq. done.
Qed.

Lemma filter_at_plain (l : JsString) :
  Forall (λ x, plain x = true) l → filter (λ x, x = 64%N) l = [].
Proof.
  induction 1 as [|x l Hx _ IH]; [done|].
  apply plain_spec in Hx as [_ Hx]. by rewrite filter_cons_False.
Qed.

(** X19: every accepted value has exactly one at sign and no white
    space; the part before the at sign is not empty, and the part behind
    it has a dot that is neither its first nor its last character. *)
Theorem validator_accepts_only (v : JsString) :
  validator v = true →
  length (filter (λ x, x = 64%N) v) = 1%nat ∧
  Forall (λ x, is_space x = false) v ∧
  ∃ local domain,
    v = local ++ 64%N :: domain ∧ local ≠ [] ∧
    ∃ i, (0 < i < length domain - 1)%nat ∧ domain !! i = Some 46%N.
Proof.
  intros H. apply validator_spec in H as (a & b & c & -> & Ha & Hb & Hc & Hf).
  rewrite !Forall_app in Hf. destruct Hf as (Hfa & Hfb & Hfc).
  split; [|split].
  - rewrite !filter_app.
    rewrite (filter_at_plain a Hfa), (filter_at_plain b Hfb), (filter_at_plain c Hfc).
    rewrite (filter_cons_True _ 64%N) by done.
    rewrite (filter_cons_False _ 46%N) by done. done.
  - rewrite !Forall_app. repeat split.
    + eapply Forall_impl; [exact Hfa|]. intros x Hx. by apply plain_spec in Hx as [].
    + by repeat constructor.
    + eapply Forall_impl; [exact Hfb|]. intros x Hx. by apply plain_spec in Hx as [].
    + by repeat constructor.
    + eapply Forall_impl; [exact Hfc|]. intros x Hx. by apply plain_spec in Hx as [].
  - exists a, (b ++ [46%N] ++ c). split; [done|]. split; [done|].
    exists (length b). split.
    + rewrite !length_app. simpl.
      destruct b; [done|]. destruct c; [done|]. simpl. lia.
    + by apply (list_lookup_middle b c 46%N).
Qed.

End EmailFacts.

(** ** The further properties on concrete runs *)

Section ProcessExamples.
Import Node.

Lemma connection_failure_stops_server_witness :
  accepted (App.run ([App.ServerBound; App.HttpRequest] ++
                     App.MongoSettled (Rejected (mkError "ECONNREFUSED")) ::
                     [App.HttpRequest; App.HttpRequest])
                    (App.main (boot ∅ ∅))) = 1.
Proof.
  pose proof (connection_failure_stops_server ∅ ∅
                [App.ServerBound; App.HttpRequest]
                [App.HttpRequest; App.HttpRequest]
                (mkError "ECONNREFUSED")) as H.
  assert (Hf : Forall (λ ev, ¬ App.is_settle ev)
                      [App.ServerBound; App.HttpRequest]).
  { repeat (apply List.Forall_cons; [simpl; tauto|]). apply List.Forall_nil. }
  specialize (H Hf). cbv zeta in H. destruct H as (_ & Hacc & _).
  etransitivity; [exact Hacc|]. by vm_compute.
Defined.

Lemma connectDB_reads_CLOUD_URI_only_witness :
  db (App.main (boot (<["MONGO_URI" := "mongodb://localhost:27017/db"]> ∅) ∅))
    = db (App.main (boot ∅ ∅)).
Proof.
  pose proof (connectDB_reads_CLOUD_URI_only ∅ ∅ "MONGO_URI"
                "mongodb://localhost:27017/db") as H.
  assert (Hk : "MONGO_URI" ≠ "CLOUD_URI") by discriminate.
  destruct (H Hk) as (H1 & _). exact H1.
Defined.

End ProcessExamples.

Section AuthMoreExamples.
Import Auth.

Lemma authenticate_user_from_token_witness :
  ∃ h p, headers admin_call !! "Authorization" = Some h ∧
    demo_verify (replace "Bearer " "" h) (env demo_server !! "JWT_SECRET") = Some p ∧
    mkRequest (headers admin_call) (params admin_call) (body admin_call)
              (Some (mkPayload "id0" (Some "admin")))
    = mkRequest (headers admin_call) (params admin_call) (body admin_call) (Some p).
Proof.
  apply (authenticate_user_from_token demo_verify demo_server admin_call).
  by vm_compute.
Defined.

Lemma authenticate_scheme_optional_witness :
  authenticate demo_verify demo_server bare_call =
    Next (mkRequest (headers bare_call) (params bare_call) (body bare_call)
                    (Some (mkPayload "id0" (Some "admin")))).
Proof.
  apply (authenticate_scheme_optional demo_verify demo_server bare_call
           "id0.admin.s3cret").
  - discriminate.
  - by vm_compute.
  - by vm_compute.
  - left. by vm_compute.
Defined.

Lemma routes_without_token_witness :
  run_middlewares [authenticate demo_verify demo_server; authorize ["admin"]]
                  user_request
    = Respond (mkResponse 401 (JMessage "Access denied")).
Proof.
  apply (routes_without_token demo_verify demo_server
           (mkRoute POST "/" [authenticate demo_verify demo_server;
                              authorize ["admin"]] "createPokemon")
           user_request).
  - apply list_elem_of_further, list_elem_of_further, list_elem_of_here.
  - by vm_compute.
Defined.

Lemma role_check_closes_mutating_routes_witness :
  run_middlewares [authenticate demo_verify demo_server; authorize ["admin"]]
                  user_call
    = Respond (mkResponse 403 (JMessage "Forbidden")).
Proof.
  pose proof (role_check_closes_mutating_routes demo_verify demo_server
                user_call "Bearer id1.user.s3cret"
                (mkPayload "id1" (Some "user"))
                (mkRoute POST "/" [authenticate demo_verify demo_server]
                         "createPokemon")
                (mkRoute POST "/" [authenticate demo_verify demo_server;
                                   authorize ["admin"]] "createPokemon")) as H.
  destruct H as [_ H2]; [..|exact H2].
  - by vm_compute.
  - by vm_compute.
  - by vm_compute.
  - discriminate.
  - apply list_elem_of_further, list_elem_of_further, list_elem_of_here.
  - apply list_elem_of_further, list_elem_of_further, list_elem_of_here.
  - discriminate.
Defined.

Lemma register_keeps_usernames_unique_witness :
  usernames registered_server = [Some "mallory"] ∧
  NoDup (usernames (register demo_hash demo_sign demo_ObjectId
                             admin_registration registered_server).2) ∧
  usernames (register demo_hash demo_sign demo_ObjectId
                      admin_registration registered_server).2 = [Some "mallory"] ∧
  NoDup (usernames (register demo_hash demo_sign demo_ObjectId
                             user_registration registered_server).2) ∧
  usernames (register demo_hash demo_sign demo_ObjectId
                      user_registration registered_server).2
    = [Some "mallory"; Some "ash"].
Proof.
  assert (Hnd : NoDup (usernames registered_server)).
  { replace (usernames registered_server) with [Some "mallory"]
      by (by vm_compute).
    apply NoDup_singleton. }
  split; [by vm_compute|]. split; [|split; [by vm_compute|split; [|by vm_compute]]].
  - exact (register_keeps_usernames_unique demo_hash demo_sign demo_ObjectId
             admin_registration registered_server Hnd).
  - exact (register_keeps_usernames_unique demo_hash demo_sign demo_ObjectId
             user_registration registered_server Hnd).
Defined.

Lemma register_keeps_schema_witness :
  Forall schema_ok (users (register demo_hash demo_sign demo_ObjectId
                                    user_registration registered_server).2) ∧
  length (users (register demo_hash demo_sign demo_ObjectId
                          user_registration registered_server).2) = 2.
Proof.
  split; [|by vm_compute].
  apply (register_keeps_schema demo_hash demo_sign demo_ObjectId
           user_registration registered_server).
  apply (register_keeps_schema demo_hash demo_sign demo_ObjectId
           admin_registration demo_server).
  apply List.Forall_nil.
Defined.

Lemma register_duplicate_username_witness :
  register demo_hash demo_sign demo_ObjectId admin_registration registered_server =
    (mkResponse 400 (JSaveError (DuplicateKey "username" "mallory")),
     registered_server).
Proof.
  apply (register_duplicate_username demo_hash demo_sign demo_ObjectId
           admin_registration registered_server "mallory" "pw").
  - by vm_compute.
  - discriminate.
  - by vm_compute.
  - discriminate.
  - vm_compute. constructor. constructor.
  - vm_compute. constructor.
Defined.

Lemma register_rejects_unlisted_role_witness :
  (register demo_hash demo_sign demo_ObjectId root_registration demo_server).2
    = demo_server.
Proof.
  pose proof (register_rejects_unlisted_role demo_hash demo_sign demo_ObjectId
                root_registration demo_server "root") as H.
  destruct H as [H _]; [by vm_compute| |exact H].
  rewrite !elem_of_cons, elem_of_nil. intros [H|[H|[]]]; discriminate.
Defined.

Lemma register_stores_before_signing_witness :
  status (register demo_hash demo_sign demo_ObjectId admin_registration
                   unsigned_server).1 = 400%Z.
Proof.
  pose proof (register_stores_before_signing demo_hash demo_sign demo_ObjectId
                admin_registration unsigned_server "mallory" "pw") as H.
  destruct H as [H _]; [..|exact H].
  - by vm_compute.
  - discriminate.
  - by vm_compute.
  - discriminate.
  - vm_compute. intros H. inversion H.
  - vm_compute. constructor. constructor.
  - by vm_compute.
Defined.


Lemma register_then_login_witness :
  let s' := (register demo_hash demo_sign demo_ObjectId admin_registration
                      demo_server).2 in
  login demo_compare demo_sign_later admin_registration s'
    = (mkResponse 200 (JToken "id0.admin.s3cret@3600"), s') ∧
  (register demo_hash demo_sign demo_ObjectId admin_registration demo_server).1
    = mkResponse 201 (JToken "id0.admin.s3cret").
Proof.
  intros s'.
  destruct (register_then_login demo_hash demo_compare demo_sign demo_ObjectId
              demo_sign_later admin_registration demo_server "mallory" "pw"
              "id0.admin.s3cret")
    as (_ & token' & Hsign & Hlogin & _).
  - by vm_compute.
  - discriminate.
  - by vm_compute.
  - discriminate.
  - vm_compute. intros H. inversion H.
  - vm_compute. constructor. constructor.
  - by vm_compute.
  - intros p k [t Ht]. unfold demo_sign_later. rewrite Ht. by eexists.
  - by vm_compute.
  - split; [|by vm_compute].
    assert (Ht : token' = "id0.admin.s3cret@3600")
      by (vm_compute in Hsign; congruence).
    rewrite Ht in Hlogin. exact Hlogin.
Defined.

Lemma registered_admin_passes_guards_witness :
  run_middlewares [authenticate demo_verify registered_server; authorize ["admin"]]
                  admin_call
    = Next (mkRequest (headers admin_call) (params admin_call) (body admin_call)
                      (Some (mkPayload (demo_ObjectId (next_id demo_server))
                                       (Some "admin")))).
Proof.
  apply (registered_admin_passes_guards demo_hash demo_sign demo_verify
           demo_ObjectId admin_registration admin_call demo_server
           "mallory" "pw" "id0.admin.s3cret"
           (mkRoute POST "/" [authenticate demo_verify registered_server;
                              authorize ["admin"]] "createPokemon")).
  - by vm_compute.
  - discriminate.
  - by vm_compute.
  - discriminate.
  - vm_compute. intros H. inversion H.
  - by vm_compute.
  - by vm_compute.
  - discriminate.
  - by vm_compute.
  - by vm_compute.
  - apply list_elem_of_further, list_elem_of_further, list_elem_of_here.
Defined.

End AuthMoreExamples.

Section EmailExamples.
Import EmailValidator.

Lemma validator_accepts_only_witness :
  length (filter (λ x, x = 64%N) (code_units "alice@example.com")) = 1%nat.
Proof.
  pose proof (validator_accepts_only (code_units "alice@example.com")) as H.
  destruct H as [H _]; [by vm_compute|exact H].
Defined.

End EmailExamples.
